(** * html-to-json-converter: the HTML to JSON tree converter, verified

    A shallow embedding of [html-to-json-converter.js] and the properties
    of its tree builder ([htmlToJson]), its inline-run segmenter
    ([parseFormattedContent]) and the per-row part of [processCSV].

    JavaScript strings are sequences of UTF-16 code units; the regular
    expressions of the converter carry no [u] flag, so they work on code
    units as well.  A string is therefore a [list N]. *)

From Stdlib Require Import NArith ZArith Ascii String DecimalString Lia Sorted.
From stdpp Require Import base option list gmap.

Set Default Proof Using "Type".

(** ** JavaScript strings *)

Module JsString.

Abbreviation jsstring := (list N).

(** A literal of the source, written as a Rocq string. *)
Definition lit (s : string) : jsstring :=
  List.map N_of_ascii (list_ascii_of_string s).

(** [s.startsWith(pat)] on the suffix [s]: is [pat] a prefix of [s]? *)
Fixpoint startsWith (pat s : jsstring) : bool :=
  match pat, s with
  | [], _ => true
  | _ :: _, [] => false
  | p :: pat', c :: s' => (p =? c)%N && startsWith pat' s'
  end.

(** Search of [pat] in the suffix [s], which begins at index [i] of the
    whole string. *)
Fixpoint indexOfFrom (pat s : jsstring) (i : nat) : option nat :=
  if startsWith pat s then Some i
  else match s with
       | [] => None
       | _ :: s' => indexOfFrom pat s' (S i)
       end.

(** [s.indexOf(pat, position)]; [None] is the source's [-1].  The
    position is clamped to the length of the string. *)
Definition indexOf (s pat : jsstring) (position : nat) : option nat :=
  indexOfFrom pat (drop position s) (position `min` length s).

(** [s.substring(a, b)]: both indices are clamped to the length, and
    swapped when [a > b]. *)
Definition substring (s : jsstring) (a b : nat) : jsstring :=
  let a' := a `min` length s in
  let b' := b `min` length s in
  take (a' `max` b' - a' `min` b') (drop (a' `min` b') s).

(** [s.substring(a)] *)
Definition substringFrom (s : jsstring) (a : nat) : jsstring :=
  substring s a (length s).

(** White space and line terminators of ECMAScript: what [\s] matches
    and what [trim] removes. *)
Definition isSpace (c : N) : bool :=
  ((9 <=? c) && (c <=? 13) || (c =? 32) || (c =? 160) || (c =? 5760)
   || (8192 <=? c) && (c <=? 8202) || (c =? 8232) || (c =? 8233)
   || (c =? 8239) || (c =? 8287) || (c =? 12288) || (c =? 65279))%N.

Fixpoint trimStart (s : jsstring) : jsstring :=
  match s with
  | c :: s' => if isSpace c then trimStart s' else s
  | [] => []
  end.

Definition trimEnd (s : jsstring) : jsstring :=
  reverse (trimStart (reverse s)).

(** [s.trim()] *)
Definition trim (s : jsstring) : jsstring := trimEnd (trimStart s).

(** Truthiness of a string: the empty string is falsy. *)
Definition truthy (s : jsstring) : bool :=
  match s with [] => false | _ => true end.

Definition eqb (s t : jsstring) : bool := bool_decide (s = t).

End JsString.
Import JsString.

(** ** Regular expressions

    The fragment of the regular-expression language that the source
    uses, with the backtracking semantics of ECMAScript: alternatives
    are tried in priority order and the first overall success wins. *)

Module Regex.

Inductive regex : Type :=
| RChars (cs : jsstring)               (* literal characters *)
| RClass (c : N → bool)                (* one character of a class *)
| RStar (greedy : bool) (c : N → bool) (* class* and class*? *)
| ROpt (r : regex)                     (* (?:r)? *)
| RSeq (r1 r2 : regex)
| RGroup (r : regex).                  (* the capturing group 1 *)

(** Positions of the capture of group 1, when it took part. *)
Definition capture := option (nat * nat).

Section Matcher.
Context {R : Type}.

(** A continuation receives the rest of the input, its index and the
    capture. *)
Definition cont := jsstring → nat → capture → option R.

Fixpoint starGreedy (c : N → bool) (s : jsstring) (i : nat)
    (k : jsstring → nat → option R) : option R :=
  match s with
  | x :: s' =>
      if c x then
        match starGreedy c s' (S i) k with
        | Some r => Some r
        | None => k s i
        end
      else k s i
  | [] => k s i
  end.

Fixpoint starLazy (c : N → bool) (s : jsstring) (i : nat)
    (k : jsstring → nat → option R) : option R :=
  match k s i with
  | Some r => Some r
  | None =>
      match s with
      | x :: s' => if c x then starLazy c s' (S i) k else None
      | [] => None
      end
  end.

Fixpoint rmatch (r : regex) (s : jsstring) (i : nat) (cap : capture)
    (k : cont) : option R :=
  match r with
  | RChars cs =>
      if startsWith cs s then k (drop (length cs) s) (i + length cs) cap
      else None
  | RClass c =>
      match s with
      | x :: s' => if c x then k s' (S i) cap else None
      | [] => None
      end
  | RStar true c => starGreedy c s i (λ s' j, k s' j cap)
  | RStar false c => starLazy c s i (λ s' j, k s' j cap)
  | ROpt r' =>
      (* an iteration that matches the empty string is rejected *)
      match rmatch r' s i cap
              (λ s' j cap', if (j =? i)%nat then None else k s' j cap') with
      | Some x => Some x
      | None => k s i cap
      end
  | RSeq r1 r2 => rmatch r1 s i cap (λ s' j cap', rmatch r2 s' j cap' k)
  | RGroup r' => rmatch r' s i cap (λ s' j _, k s' j (Some (i, j)))
  end.
End Matcher.

(** The array returned by [exec]: [index], the end of the match (the
    new [lastIndex] of a global regular expression) and element 1, which
    is [undefined] ([None]) when group 1 took no part. *)
Record matchResult : Type := MatchResult {
  index : nat;
  matchEnd : nat;
  group1 : option jsstring
}.

(** Try the start positions [i], [i+1], ... of the suffix [s] of [str]. *)
Fixpoint execFrom (r : regex) (str s : jsstring) (i : nat) : option matchResult :=
  match rmatch r s i None
          (λ _ j cap, Some (MatchResult i j ((λ '(a, b), substring str a b) <$> cap))) with
  | Some m => Some m
  | None =>
      match s with
      | [] => None
      | _ :: s' => execFrom r str s' (S i)
      end
  end.

(** [r.exec(str)] of a global regular expression whose [lastIndex] is
    [lastIndex]; [None] is [null]. *)
Definition exec (r : regex) (str : jsstring) (lastIndex : nat) : option matchResult :=
  if (length str <? lastIndex)%nat then None
  else execFrom r str (drop lastIndex str) lastIndex.

(** The loop [while ((match = r.exec(str)) !== null) { ... }], as the
    list of the matches it visits.  Every iteration moves [lastIndex]
    forward, so [S (length str)] iterations are enough. *)
Fixpoint execLoop (fuel : nat) (r : regex) (str : jsstring) (lastIndex : nat)
    : list matchResult :=
  match fuel with
  | O => []
  | S fuel' =>
      match exec r str lastIndex with
      | None => []
      | Some m => m :: execLoop fuel' r str (matchEnd m)
      end
  end.

Definition execAll (r : regex) (str : jsstring) : list matchResult :=
  execLoop (S (length str)) r str 0.

Definition anyChar (c : N) : bool := true.
Definition notGt (c : N) : bool := negb (c =? 62)%N.

(** The regular expressions of the block passes, all of the shape
    [<TAG] [(?: \s [^>]* )?] [>] [( [\s\S]*? )] [<\/TAG>] with the flag [g]. *)
Definition blockRegex (tag : jsstring) : regex :=
  RSeq (RChars (lit "<" ++ tag))
    (RSeq (ROpt (RSeq (RClass isSpace) (RStar true notGt)))
      (RSeq (RChars (lit ">"))
        (RSeq (RGroup (RStar false anyChar))
              (RChars (lit "</" ++ tag ++ lit ">"))))).

End Regex.
Import Regex.



(** ** Effects: exceptions over a mutable state

    A computation runs on a state [S] and completes normally or by a
    throw.  What it wrote to the state before a throw stays written, as
    with the objects that the source mutates in place. *)

Module Eff.

Inductive jsError : Type :=
| TypeError (message : jsstring).

Definition message (e : jsError) : jsstring :=
  match e with TypeError m => m end.

Inductive completion (A : Type) : Type :=
| Normal (a : A)
| Throw (e : jsError).
Arguments Normal {A} a.
Arguments Throw {A} e.

Definition eff (S A : Type) : Type := S → completion A * S.

#[export] Instance completion_ret : MRet completion := λ A a, Normal a.
#[export] Instance completion_bind : MBind completion := λ A B f c,
  match c with
  | Normal a => f a
  | Throw e => Throw e
  end.

#[export] Instance eff_ret {S} : MRet (eff S) := λ A a st, (Normal a, st).
#[export] Instance eff_bind {S} : MBind (eff S) := λ A B f c st,
  match c st with
  | (Normal a, st') => f a st'
  | (Throw e, st') => (Throw e, st')
  end.

(** A computation without access to the state. *)
Definition liftC {S A} (c : completion A) : eff S A := λ st, (c, st).

Definition get {S} : eff S S := λ st, (Normal st, st).
Definition modify {S} (f : S → S) : eff S unit := λ st, (Normal (), f st).

(** [try { c } catch (e) { handler e }] *)
Definition tryCatch {S A} (c : eff S A) (handler : jsError → eff S A) : eff S A :=
  λ st, match c st with
        | (Normal a, st') => (Normal a, st')
        | (Throw e, st') => handler e st'
        end.

(** [for (const x of xs) { body x }] *)
Fixpoint forEach {S A} (xs : list A) (body : A → eff S unit) : eff S unit :=
  match xs with
  | [] => mret ()
  | x :: xs' => body x ;; forEach xs' body
  end.

End Eff.
Import Eff.

(** ** The document tree *)

Inductive attr : Type :=
| italic | bold | underline | strikethrough | code
| highlight | small | subscript | superscript.

#[export] Instance attr_eq_dec : EqDecision attr.
Proof. solve_decision. Defined.

(** A node [{type: "text", value, ...}]; [flags] are the formatting
    properties that were set to [true] on the object. *)
Record TextRun : Type := mkText {
  value : jsstring;
  flags : list attr
}.

#[export] Instance TextRun_eq_dec : EqDecision TextRun.
Proof. solve_decision. Defined.

Inductive listType : Type := ordered | unordered.

Record ListItem : Type := mkListItem {
  itemChildren : list TextRun
}.

Inductive Node : Type :=
| Paragraph (children : list TextRun)
| ListNode (lt : listType) (children : list ListItem)
| Heading (level : nat) (children : list TextRun).

Record Root : Type := mkRoot {
  rootChildren : list Node
}.

(** ** The inline-run segmenter: [parseFormattedContent] *)

Record formattingTag : Type := mkTag {
  tagStart : jsstring;
  tagEnd : jsstring;
  tagAttr : attr
}.

Definition formattingTags : list formattingTag :=
  [ mkTag (lit "<em>") (lit "</em>") italic;
    mkTag (lit "<i>") (lit "</i>") italic;
    mkTag (lit "<strong>") (lit "</strong>") bold;
    mkTag (lit "<b>") (lit "</b>") bold;
    mkTag (lit "<u>") (lit "</u>") underline;
    mkTag (lit "<strike>") (lit "</strike>") strikethrough;
    mkTag (lit "<s>") (lit "</s>") strikethrough;
    mkTag (lit "<del>") (lit "</del>") strikethrough;
    mkTag (lit "<code>") (lit "</code>") code;
    mkTag (lit "<mark>") (lit "</mark>") highlight;
    mkTag (lit "<small>") (lit "</small>") small;
    mkTag (lit "<sub>") (lit "</sub>") subscript;
    mkTag (lit "<sup>") (lit "</sup>") superscript ].

(** An entry of [tagPositions]. *)
Record tagPosition : Type := mkPos {
  posStart : nat;
  posEnd : nat;
  contentStart : nat;
  contentEnd : nat;
  posAttr : attr
}.

(** The [while] loop of one tag: [startIndex] is the loop variable and
    the positions found are pushed onto [tagPositions].  The loop variable
    grows in every iteration, so the fuel [S (length content)] that
    [findTagPositions] gives is never used up ([scanTag_fuel]). *)
Fixpoint scanTag (fuel : nat) (content : jsstring) (tag : formattingTag)
    (startIndex : nat) (tagPositions : list tagPosition) : list tagPosition :=
  match fuel with
  | O => tagPositions
  | S fuel' =>
      match indexOf content (tagStart tag) startIndex with
      | None => tagPositions
      | Some startIndex =>
          match indexOf content (tagEnd tag) (startIndex + length (tagStart tag)) with
          | None => tagPositions
          | Some endIndex =>
              scanTag fuel' content tag (endIndex + length (tagEnd tag))
                (tagPositions ++
                 [ {| posStart := startIndex;
                      posEnd := endIndex + length (tagEnd tag);
                      contentStart := startIndex + length (tagStart tag);
                      contentEnd := endIndex;
                      posAttr := tagAttr tag |} ])
          end
      end
  end.

(** [formattingTags.forEach(tag => ...)] *)
Definition findTagPositions (content : jsstring) : list tagPosition :=
  fold_left (λ tagPositions tag, scanTag (S (length content)) content tag 0 tagPositions)
    formattingTags [].

(** [tagPositions.sort((a, b) => a.start - b.start)]: the sort of an
    array is stable, here an insertion sort that keeps the order of
    entries with equal starts. *)
Fixpoint insertPos (p : tagPosition) (l : list tagPosition) : list tagPosition :=
  match l with
  | [] => [p]
  | q :: l' =>
      if (posStart p <=? posStart q)%nat then p :: q :: l'
      else q :: insertPos p l'
  end.

Definition sortPositions (l : list tagPosition) : list tagPosition :=
  foldr insertPos [] l.

(** The loop [for (const pos of tagPositions)], with its variable
    [lastIndex]; returns the array and the final [lastIndex]. *)
Fixpoint walkPositions (content : jsstring) (positions : list tagPosition)
    (lastIndex : nat) (childrenArray : list TextRun) : list TextRun * nat :=
  match positions with
  | [] => (childrenArray, lastIndex)
  | pos :: rest =>
      let childrenArray :=
        if (lastIndex <? posStart pos)%nat then
          let textBefore := substring content lastIndex (posStart pos) in
          if truthy textBefore then childrenArray ++ [mkText textBefore []]
          else childrenArray
        else childrenArray in
      let formattedText := substring content (contentStart pos) (contentEnd pos) in
      let textNode := mkText formattedText [posAttr pos] in
      walkPositions content rest (posEnd pos) (childrenArray ++ [textNode])
  end.

(** The body of [parseFormattedContent] for a string [content]. *)
Definition parseFormattedString (content : jsstring) (childrenArray : list TextRun)
    : list TextRun :=
  let tagPositions := findTagPositions content in
  match tagPositions with
  | [] => childrenArray ++ [mkText content []]
  | _ =>
      let tagPositions := sortPositions tagPositions in
      let '(childrenArray, lastIndex) := walkPositions content tagPositions 0 childrenArray in
      if (lastIndex <? length content)%nat then
        let textAfter := substringFrom content lastIndex in
        if truthy textAfter then childrenArray ++ [mkText textAfter []]
        else childrenArray
      else childrenArray
  end.

(** [parseFormattedContent(content, childrenArray)]: the new contents of
    [childrenArray].  [content] is element 1 of a match, which is
    [undefined] when the group took no part; [content.indexOf] throws on
    it, before anything is pushed. *)
Definition parseFormattedContent (content : option jsstring)
    (childrenArray : list TextRun) : completion (list TextRun) :=
  match content with
  | None => Throw (TypeError (lit "Cannot read properties of undefined (reading 'indexOf')"))
  | Some content => Normal (parseFormattedString content childrenArray)
  end.



(** ** The block passes and [htmlToJson] *)

(** The state of the [try] block of [htmlToJson] is [result.children]. *)
Definition push (n : Node) : eff (list Node) unit :=
  modify (λ children, children ++ [n]).

(** [x.trim()] on element 1 of a match: a [TypeError] on [undefined]. *)
Definition trimOf (x : option jsstring) : completion jsstring :=
  match x with
  | None => Throw (TypeError (lit "Cannot read properties of undefined (reading 'trim')"))
  | Some s => Normal (trim s)
  end.

(** [String(x)], as [exec] applies it to its argument. *)
Definition toStringArg (x : option jsstring) : jsstring :=
  default (lit "undefined") x.

Definition paragraphRegex : regex := blockRegex (lit "p").
Definition ulRegex : regex := blockRegex (lit "ul").
Definition olRegex : regex := blockRegex (lit "ol").
Definition listItemRegex : regex := blockRegex (lit "li").

(** The regular expression built for [level] by [processHeadings];
    [level] is a digit. *)
Definition headingRegex (level : nat) : regex :=
  blockRegex (lit "h" ++ [(48 + N.of_nat level)%N]).

(** The children of the paragraph of one match. *)
Definition paragraphChildren (paragraphContent : option jsstring)
    : completion (list TextRun) :=
  t ← trimOf paragraphContent;
  if negb (truthy t) || eqb t (lit "<br>")
  then mret [mkText (lit " ") []]
  else parseFormattedContent paragraphContent [].

(** The body of the paragraph loop of [htmlToJson]. *)
Definition paragraphBlock (m : matchResult) : eff (list Node) unit :=
  children ← liftC (paragraphChildren (group1 m));
  push (Paragraph children).

(** The body of the loop of [processListItems]: the new [list.children]. *)
Definition listItemBlock (items : list ListItem) (itemMatch : matchResult)
    : completion (list ListItem) :=
  children ← parseFormattedContent (group1 itemMatch) [];
  mret (items ++ [mkListItem children]).

Fixpoint listItemsLoop (ms : list matchResult) (items : list ListItem)
    : completion (list ListItem) :=
  match ms with
  | [] => mret items
  | m :: ms' => items' ← listItemBlock items m; listItemsLoop ms' items'
  end.

(** [processListItems(listContent, list)]: the new [list.children]. *)
Definition processListItems (listContent : option jsstring) (items : list ListItem)
    : completion (list ListItem) :=
  listItemsLoop (execAll listItemRegex (toStringArg listContent)) items.

Definition listBlock (lt : listType) (m : matchResult) : eff (list Node) unit :=
  items ← liftC (processListItems (group1 m) []);
  push (ListNode lt items).

(** [processLists(htmlString, result)] *)
Definition processLists (htmlString : jsstring) : eff (list Node) unit :=
  forEach (execAll ulRegex htmlString) (listBlock unordered);;
  forEach (execAll olRegex htmlString) (listBlock ordered).

Definition headingBlock (level : nat) (m : matchResult) : eff (list Node) unit :=
  children ← liftC (parseFormattedContent (group1 m) []);
  push (Heading level children).

(** [processHeadings(htmlString, result)] *)
Definition processHeadings (htmlString : jsstring) : eff (list Node) unit :=
  forEach (seq 1 6) (λ level,
    forEach (execAll (headingRegex level) htmlString) (headingBlock level)).

(** The paragraph loop at the head of the [try] block. *)
Definition processParagraphs (htmlString : jsstring) : eff (list Node) unit :=
  forEach (execAll paragraphRegex htmlString) paragraphBlock.

(** The console, as the list of the lines written to it. *)
Inductive logEntry : Type :=
| ErrorParsingHTML (e : jsError)
| WarnRow (row : nat) (message : jsstring)
| WarnColumnNotFound (column : jsstring).

(** The state of a call of [htmlToJson]: the local object [result] and
    the console. *)
Record frame : Type := mkFrame {
  result : list Node;
  console : list logEntry
}.

(** Run a computation on [result.children] inside the frame. *)
Definition onResult {A} (c : eff (list Node) A) : eff frame A :=
  λ fr, let '(r, children) := c (result fr) in
        (r, mkFrame children (console fr)).

Definition consoleError (e : jsError) : eff frame unit :=
  modify (λ fr, mkFrame (result fr) (console fr ++ [ErrorParsingHTML e])).

Section Converter.
(** The three passes of the [try] block, in the order of the source. *)
Variables paragraphs lists headings : jsstring → eff (list Node) unit.

Definition htmlToJsonFrame (htmlString : jsstring) : eff frame Root :=
  tryCatch
    (onResult (paragraphs htmlString;; lists htmlString;; headings htmlString))
    (λ error, consoleError error);;
  fr ← get;
  mret (mkRoot (result fr)).

(** [htmlToJson] over the console: [result] starts as an empty root. *)
Definition htmlToJsonWith (htmlString : jsstring) : eff (list logEntry) Root :=
  λ con, let '(r, fr) := htmlToJsonFrame htmlString (mkFrame [] con) in
         (r, console fr).
End Converter.

Definition htmlToJson : jsstring → eff (list logEntry) Root :=
  htmlToJsonWith processParagraphs processLists processHeadings.

(** The tree of a conversion that returned. *)
Definition returned {S A} (r : completion A * S) : option A :=
  match r with
  | (Normal a, _) => Some a
  | (Throw _, _) => None
  end.

(** ** [JSON.stringify] of a tree *)

Module Json.

Definition hexDigit (n : N) : N :=
  (if n <? 10 then 48 + n else 87 + n)%N.

(** The escape [\uXXXX] of a code unit, in lower-case digits. *)
Definition unicodeEscape (c : N) : jsstring :=
  [92; 117; hexDigit (c / 4096 mod 16); hexDigit (c / 256 mod 16);
   hexDigit (c / 16 mod 16); hexDigit (c mod 16)]%N.

Definition isLeadSurrogate (c : N) : bool := ((55296 <=? c) && (c <=? 56319))%N.
Definition isTrailSurrogate (c : N) : bool := ((56320 <=? c) && (c <=? 57343))%N.

(** One code unit that is not part of a surrogate pair. *)
Definition quoteUnit (c : N) : jsstring :=
  (if c =? 8 then [92; 98]
   else if c =? 9 then [92; 116]
   else if c =? 10 then [92; 110]
   else if c =? 12 then [92; 102]
   else if c =? 13 then [92; 114]
   else if c =? 34 then [92; 34]
   else if c =? 92 then [92; 92]
   else if (c <? 32) || isLeadSurrogate c || isTrailSurrogate c then unicodeEscape c
   else [c])%N.

Fixpoint quoteUnits (s : jsstring) : jsstring :=
  match s with
  | [] => []
  | c :: s' =>
      if isLeadSurrogate c then
        match s' with
        | d :: s'' =>
            if isTrailSurrogate d then c :: d :: quoteUnits s''
            else unicodeEscape c ++ quoteUnits s'
        | [] => unicodeEscape c
        end
      else quoteUnit c ++ quoteUnits s'
  end.

(** [QuoteJSONString] *)
Definition quote (s : jsstring) : jsstring := [34%N] ++ quoteUnits s ++ [34%N].

Definition attrName (a : attr) : jsstring :=
  match a with
  | italic => lit "italic"
  | bold => lit "bold"
  | underline => lit "underline"
  | strikethrough => lit "strikethrough"
  | code => lit "code"
  | highlight => lit "highlight"
  | small => lit "small"
  | subscript => lit "subscript"
  | superscript => lit "superscript"
  end.

(** The elements of an array, separated by commas. *)
Fixpoint commaSep (xs : list jsstring) : jsstring :=
  match xs with
  | [] => []
  | [x] => x
  | x :: xs' => x ++ [44%N] ++ commaSep xs'
  end.

Definition array (xs : list jsstring) : jsstring := [91%N] ++ commaSep xs ++ [93%N].

(** A property [,"key":value] after the first one of an object. *)
Definition prop (key value : jsstring) : jsstring :=
  [44%N] ++ quote key ++ [58%N] ++ value.

(** An object whose first property is [type]. *)
Definition object (type : jsstring) (props : jsstring) : jsstring :=
  [123%N] ++ quote (lit "type") ++ [58%N] ++ quote type ++ props ++ [125%N].

Definition textRun (run : TextRun) : jsstring :=
  object (lit "text")
    (prop (lit "value") (quote (value run))
     ++ concat ((λ a, prop (attrName a) (lit "true")) <$> flags run)).

Definition children (xs : list jsstring) : jsstring := prop (lit "children") (array xs).

Definition listItem (item : ListItem) : jsstring :=
  object (lit "listItem") (children (textRun <$> itemChildren item)).

Definition listTypeName (lt : listType) : jsstring :=
  match lt with ordered => lit "ordered" | unordered => lit "unordered" end.

Definition number (n : nat) : jsstring :=
  lit (DecimalString.NilZero.string_of_uint (Nat.to_uint n)).

Definition node (n : Node) : jsstring :=
  match n with
  | Paragraph kids => object (lit "paragraph") (children (textRun <$> kids))
  | ListNode lt items =>
      object (lit "list")
        (prop (lit "listType") (quote (listTypeName lt)) ++ children (listItem <$> items))
  | Heading level kids =>
      object (lit "heading")
        (prop (lit "level") (number level) ++ children (textRun <$> kids))
  end.

(** [JSON.stringify(root)] *)
Definition stringify (root : Root) : jsstring :=
  object (lit "root") (children (node <$> rootChildren root)).

End Json.

(** [htmlToJsonString(htmlString)] *)
Definition htmlToJsonString (htmlString : jsstring) : eff (list logEntry) jsstring :=
  jsonOutput ← htmlToJson htmlString;
  mret (Json.stringify jsonOutput).

(** ** The rows of [processCSV] *)

(** The value of a cell.  A cell is a string unless the options given to
    the parser cast it; [VObject] stands for an object or a function
    without a method [trim] (a date, a method of the prototype). *)
Inductive jsval : Type :=
| VUndefined
| VNull
| VBool (b : bool)
| VNumber (n : Z)
| VString (s : jsstring)
| VObject.

#[export] Instance jsval_eq_dec : EqDecision jsval.
Proof. solve_decision. Defined.

(** A record of the parser: its own properties, by column name. *)
Abbreviation record := (gmap jsstring jsval).

Definition consoleWarn (entry : logEntry) : eff (list logEntry) unit :=
  modify (λ con, con ++ [entry]).

(** [htmlContent && htmlContent.trim()], as the condition of an [if]:
    a falsy value is never asked for its [trim]; a truthy value that is
    not a string has none, and calling it throws. *)
Definition contentToConvert (htmlContent : jsval) : completion (option jsstring) :=
  match htmlContent with
  | VUndefined | VNull | VBool false => Normal None
  | VNumber n => if (n =? 0)%Z then Normal None
                 else Throw (TypeError (lit "htmlContent.trim is not a function"))
  | VString s => Normal (if truthy s && truthy (trim s) then Some s else None)
  | VBool true | VObject => Throw (TypeError (lit "htmlContent.trim is not a function"))
  end.

Section ProcessCSV.
(** The names of the properties that a record inherits from its
    prototype; their values are functions and objects. *)
Variable inherited : jsstring → bool.

(** [htmlColumn in record] *)
Definition hasProperty (r : record) (key : jsstring) : bool :=
  bool_decide (is_Some (r !! key)) || inherited key.

(** [record[htmlColumn]] *)
Definition getProperty (r : record) (key : jsstring) : jsval :=
  match r !! key with
  | Some v => v
  | None => if inherited key then VObject else VUndefined
  end.

(** The [try] block of a row: the new contents of [newRecord].  The
    assignment to [newRecord] is its last step, so a throw leaves
    [newRecord] as it was. *)
Definition convertCell (htmlColumn : jsstring) (r newRecord : record)
    : eff (list logEntry) record :=
  let htmlContent := getProperty r htmlColumn in
  c ← liftC (contentToConvert htmlContent);
  match c with
  | Some s =>
      jsonContent ← htmlToJson s;
      mret (<[htmlColumn := VString (Json.stringify jsonContent)]> newRecord)
  | None => mret newRecord
  end.

(** The function given to [records.map]. *)
Definition processRecord (htmlColumn : jsstring) (index : nat) (r : record)
    : eff (list logEntry) record :=
  let newRecord := r in
  if hasProperty r htmlColumn then
    tryCatch (convertCell htmlColumn r newRecord)
      (λ err, consoleWarn (WarnRow (index + 1) (message err));; mret newRecord)
  else
    (if (index =? 0)%nat then consoleWarn (WarnColumnNotFound htmlColumn) else mret ());;
    mret newRecord.

(** [records.map((record, index) => ...)], from [index] on. *)
Fixpoint mapRecords (htmlColumn : jsstring) (index : nat) (records : list record)
    : eff (list logEntry) (list record) :=
  match records with
  | [] => mret []
  | r :: rest =>
      r' ← processRecord htmlColumn index r;
      rest' ← mapRecords htmlColumn (S index) rest;
      mret (r' :: rest')
  end.

(** The rows of [processCSV]: [processedRecords] for the [records] that
    the parser returned. *)
Definition processRecords (htmlColumn : jsstring) (records : list record)
    : eff (list logEntry) (list record) :=
  mapRecords htmlColumn 0 records.
End ProcessCSV.

(** The property names of [Object.prototype]. *)
Definition objectPrototype (key : jsstring) : bool :=
  bool_decide (key ∈ [lit "constructor"; lit "__defineGetter__"; lit "__defineSetter__";
                      lit "hasOwnProperty"; lit "__lookupGetter__"; lit "__lookupSetter__";
                      lit "isPrototypeOf"; lit "propertyIsEnumerable"; lit "toString";
                      lit "valueOf"; lit "__proto__"; lit "toLocaleString"]).

(** ** Whole files: [processCSV] and [batchProcessCSV]

    The file system, the CSV parser, the CSV writer, the glob search and
    the path functions are libraries outside the repository: they are
    parameters here.  A call of the file system may throw and may change
    the state [F] of the file system. *)

(** The lines that the file functions write to the console; [LogRow] is
    a line written while the rows are processed. *)
Inductive fileLog : Type :=
| LogRow (entry : logEntry)
| LogProcessing (records : nat) (inputFilePath : jsstring)
| LogWritten (outputFilePath : jsstring)
| LogCsvError (message : jsstring)
| LogNoFiles (globPattern : jsstring)
| LogFound (files : nat) (globPattern : jsstring)
| LogFile (number total : nat) (file : jsstring)
| LogFileError (file message : jsstring)
| LogComplete (successful total : nat).

(** The object that [processCSV] returns. *)
Record csvResult : Type := mkCsvResult {
  recordsProcessed : nat;
  outputFile : jsstring
}.

(** An element of the array that [batchProcessCSV] returns: the entry
    of a file that was processed ([success: true], with the properties of
    the result spread into it) or of a file that failed. *)
Inductive batchEntry : Type :=
| FileOk (input output : jsstring) (result : csvResult)
| FileFailed (input error : jsstring).


Definition entrySuccess (e : batchEntry) : bool :=
  match e with FileOk _ _ _ => true | FileFailed _ _ => false end.

Section Files.
Context {F O : Type}.

(** The state of the file functions: the file system and the console. *)
Record world : Type := mkWorld {
  files : F;
  lines : list fileLog
}.

Variable inherited : jsstring → bool.
(** [fs.readFileSync(path, 'utf8')] *)
Variable readFileSync : jsstring → F → completion jsstring.
(** [fs.writeFileSync(path, data)] *)
Variable writeFileSync : jsstring → jsstring → F → completion unit * F.
(** [parse(content, {...defaultOptions, ...options})] *)
Variable parse : jsstring → O → completion (list record).
(** [stringify(records, {header: true})] *)
Variable stringify : list record → completion jsstring.
(** [glob.sync(globPattern)] *)
Variable globSync : jsstring → F → list jsstring.
(** [if (!fs.existsSync(dir)) fs.mkdirSync(dir, {recursive: true})] *)
Variable ensureDir : jsstring → F → completion unit * F.
(** [path.basename] and [path.join] *)
Variable basename : jsstring → jsstring.
Variable join : jsstring → jsstring → jsstring.

Definition consoleLine (l : fileLog) : eff world unit :=
  modify (λ w, mkWorld (files w) (lines w ++ [l])).

(** A call that reads the file system. *)
Definition reading {A} (f : F → completion A) : eff world A :=
  λ w, (f (files w), w).

(** A call that may change the file system. *)
Definition writing {A} (f : F → completion A * F) : eff world A :=
  λ w, let '(r, fs') := f (files w) in (r, mkWorld fs' (lines w)).

(** The rows, run on a console of their own whose lines are then
    written to the console of the world: the console is only appended
    to, never read. *)
Definition withRowConsole {A} (c : eff (list logEntry) A) : eff world A :=
  λ w, let '(r, con) := c [] in (r, mkWorld (files w) (lines w ++ (LogRow <$> con))).

(** The [try] block of [processCSV]. *)
Definition processCSVBody (inputFilePath outputFilePath htmlColumn : jsstring)
    (options : O) : eff world csvResult :=
  content ← reading (readFileSync inputFilePath);
  records ← liftC (parse content options);
  consoleLine (LogProcessing (length records) inputFilePath);;
  processedRecords ← withRowConsole (processRecords inherited htmlColumn records);
  outputContent ← liftC (stringify processedRecords);
  writing (writeFileSync outputFilePath outputContent);;
  consoleLine (LogWritten outputFilePath);;
  mret (mkCsvResult (length records) outputFilePath).

(** [processCSV(inputFilePath, outputFilePath, htmlColumn, options)]:
    an error is written to the console and thrown again. *)
Definition processCSV (inputFilePath outputFilePath htmlColumn : jsstring)
    (options : O) : eff world csvResult :=
  tryCatch (processCSVBody inputFilePath outputFilePath htmlColumn options)
    (λ error, consoleLine (LogCsvError (message error));; liftC (Throw error)).

(** The function given to [files.forEach]: the new contents of
    [results]. *)
Definition batchFile (outputDir htmlColumn : jsstring) (options : O) (total : nat)
    (results : list batchEntry) (index : nat) (file : jsstring)
    : eff world (list batchEntry) :=
  tryCatch
    (let outputFile := join outputDir (basename file) in
     consoleLine (LogFile (index + 1) total file);;
     result ← processCSV file outputFile htmlColumn options;
     mret (results ++ [FileOk file outputFile result]))
    (λ error,
       consoleLine (LogFileError file (message error));;
       mret (results ++ [FileFailed file (message error)])).

Fixpoint batchLoop (outputDir htmlColumn : jsstring) (options : O) (total : nat)
    (results : list batchEntry) (index : nat) (rest : list jsstring)
    : eff world (list batchEntry) :=
  match rest with
  | [] => mret results
  | file :: rest' =>
      results' ← batchFile outputDir htmlColumn options total results index file;
      batchLoop outputDir htmlColumn options total results' (S index) rest'
  end.

(** [batchProcessCSV(globPattern, outputDir, htmlColumn, options)] *)
Definition batchProcessCSV (globPattern outputDir htmlColumn : jsstring)
    (options : O) : eff world (list batchEntry) :=
  found ← (λ w, (Normal (globSync globPattern (files w)), w));
  match found with
  | [] => consoleLine (LogNoFiles globPattern);; mret []
  | _ =>
      writing (ensureDir outputDir);;
      consoleLine (LogFound (length found) globPattern);;
      results ← batchLoop outputDir htmlColumn options (length found) [] 0 found;
      let successful := length (filter (λ r, entrySuccess r = true) results) in
      consoleLine (LogComplete successful (length found));;
      mret results
  end.

End Files.

(** ** The transform of [streamProcessCSV] *)

(** A record of the streaming parser: an array of cells, or an object
    when the options ask for columns. *)
Inductive row : Type :=
| RowArray (cells : list jsval)
| RowObject (r : record).

(** The variables of the promise, and the console. *)
Record streamState : Type := mkStream {
  recordCount : nat;
  headerSeen : bool;
  columnIndex : option nat;
  streamConsole : list logEntry
}.

(** Truthiness of a value. *)
Definition truthyVal (v : jsval) : bool :=
  match v with
  | VUndefined | VNull => false
  | VBool b => b
  | VNumber n => negb (n =? 0)%Z
  | VString s => truthy s
  | VObject => true
  end.

(** [cells.findIndex(p)]; [None] is [-1]. *)
Fixpoint findIndexFrom (p : jsval → bool) (cells : list jsval) (i : nat) : option nat :=
  match cells with
  | [] => None
  | c :: cells' => if p c then Some i else findIndexFrom p cells' (S i)
  end.

Definition findIndex (p : jsval → bool) (cells : list jsval) : option nat :=
  findIndexFrom p cells 0.

(** A computation on the console, inside the state of the stream. *)
Definition onConsole {A} (c : eff (list logEntry) A) : eff streamState A :=
  λ st, let '(r, con) := c (streamConsole st) in
        (r, mkStream (recordCount st) (headerSeen st) (columnIndex st) con).

(** The header: the first record. *)
Definition streamHeader (htmlColumn : jsstring) (record : row) : eff streamState row :=
  match record with
  | RowArray cells =>
      let found := findIndex (λ col, bool_decide (col = VString htmlColumn)) cells in
      modify (λ st, mkStream (recordCount st) (headerSeen st) found (streamConsole st));;
      match found with
      | None => onConsole (consoleWarn (WarnColumnNotFound htmlColumn))
      | Some _ => mret ()
      end
  | RowObject _ => mret ()
  end;;
  modify (λ st, mkStream (recordCount st) true (columnIndex st) (streamConsole st));;
  mret record.

(** A record after the header.  The test [htmlContent &&
    htmlContent.trim()] stands outside the inner [try]: what it throws
    ends the transform with an error. *)
Definition streamRecord (record : row) : eff streamState row :=
  modify (λ st, mkStream (recordCount st + 1) (headerSeen st) (columnIndex st)
                  (streamConsole st));;
  st ← get;
  match columnIndex st, record with
  | Some i, RowArray cells =>
      let htmlContent := default VUndefined (cells !! i) in
      if truthyVal htmlContent then
        c ← liftC (contentToConvert htmlContent);
        match c with
        | Some s =>
            tryCatch
              (jsonContent ← onConsole (htmlToJson s);
               mret (RowArray (<[i := VString (Json.stringify jsonContent)]> cells)))
              (λ err,
                 onConsole (consoleWarn (WarnRow (recordCount st) (message err)));;
                 mret record)
        | None => mret record
        end
      else mret record
  | _, _ => mret record
  end.

(** [transform(record, encoding, callback)]: the record given to
    [callback], or the error given to it. *)
Definition streamTransform (htmlColumn : jsstring) (record : row) : eff streamState row :=
  st ← get;
  if headerSeen st then streamRecord record else streamHeader htmlColumn record.

(** The records in their order through the transform; the first error
    ends the pipeline. *)
Fixpoint streamRows (htmlColumn : jsstring) (records : list row)
    : eff streamState (list row) :=
  match records with
  | [] => mret []
  | record :: rest =>
      record' ← streamTransform htmlColumn record;
      rest' ← streamRows htmlColumn rest;
      mret (record' :: rest')
  end.

(** The state in which the promise of [streamProcessCSV] starts. *)
Definition streamStart (con : list logEntry) : streamState :=
  mkStream 0 false None con.

(** * Vocabulary of the specification *)

(** [pat] occurs in [s] at index [i]. *)
Definition occursAt (pat s : jsstring) (i : nat) : Prop :=
  ∃ pre post, s = pre ++ pat ++ post ∧ length pre = i.

(** The least number of characters a match takes. *)
Fixpoint minLen (r : regex) : nat :=
  match r with
  | RChars cs => length cs
  | RClass _ => 1
  | RStar _ _ | ROpt _ => 0
  | RSeq r1 r2 => minLen r1 + minLen r2
  | RGroup r' => minLen r'
  end.

(** Does every match go through the capturing group? *)
Fixpoint hasGroup (r : regex) : bool :=
  match r with
  | RChars _ | RClass _ | RStar _ _ | ROpt _ => false
  | RSeq r1 r2 => hasGroup r1 || hasGroup r2
  | RGroup _ => true
  end.

(** The strings a regular expression matches. *)
Fixpoint lang (r : regex) (w : jsstring) : Prop :=
  match r with
  | RChars cs => w = cs
  | RClass c => ∃ x, w = [x] ∧ c x = true
  | RStar _ c => forallb c w = true
  | ROpt r' => w = [] ∨ lang r' w
  | RSeq r1 r2 => ∃ w1 w2, w = w1 ++ w2 ∧ lang r1 w1 ∧ lang r2 w2
  | RGroup r' => lang r' w
  end.

(** Document order: [ms] are matches found from [lastIndex] on, each
    one beginning where the one before it ended, or later. *)
Fixpoint inDocumentOrder (lastIndex : nat) (ms : list matchResult) : Prop :=
  match ms with
  | [] => True
  | m :: ms' =>
      lastIndex ≤ index m ∧ index m < matchEnd m ∧ inDocumentOrder (matchEnd m) ms'
  end.

(** The test of the paragraph loop: nothing but white space, or one
    line-break tag. *)
Definition isBlank (paragraphContent : jsstring) : bool :=
  negb (truthy (trim paragraphContent)) || eqb (trim paragraphContent) (lit "<br>").

Definition paragraphNode (paragraphContent : jsstring) : Node :=
  Paragraph (if isBlank paragraphContent then [mkText (lit " ") []]
             else parseFormattedString paragraphContent []).

(** The contents (element 1) of all matches of [r] in [str]. *)
Definition contents (r : regex) (str : jsstring) : list jsstring :=
  omap group1 (execAll r str).

Definition listItemNode (itemContent : jsstring) : ListItem :=
  mkListItem (parseFormattedString itemContent []).

Definition listNode (lt : listType) (listContent : jsstring) : Node :=
  ListNode lt (listItemNode <$> contents listItemRegex listContent).

Definition headingNode (level : nat) (headingContent : jsstring) : Node :=
  Heading level (parseFormattedString headingContent []).

Definition paragraphNodes (html : jsstring) : list Node :=
  paragraphNode <$> contents paragraphRegex html.

Definition listNodes (lt : listType) (html : jsstring) : list Node :=
  listNode lt <$> contents (match lt with unordered => ulRegex | ordered => olRegex end) html.

Definition headingNodes (html : jsstring) : list Node :=
  concat ((λ level, headingNode level <$> contents (headingRegex level) html) <$> seq 1 6).

(** The children of the root, as the source's passes leave them. *)
Definition rootChildrenOf (html : jsstring) : list Node :=
  paragraphNodes html ++ listNodes unordered html ++ listNodes ordered html
  ++ headingNodes html.

(** The text between a tag name and the [>] of an opening tag: nothing,
    or a white-space character followed by characters other than [>]. *)
Definition validAttrs (attrs : jsstring) : Prop :=
  attrs = [] ∨ ∃ w rest, attrs = w :: rest ∧ isSpace w = true ∧ forallb notGt rest = true.

(** The text of a block: opening tag, content, closing tag. *)
Definition blockText (tag attrs content : jsstring) : jsstring :=
  (lit "<" ++ tag) ++ attrs ++ lit ">" ++ content ++ (lit "</" ++ tag ++ lit ">").

(** [html] contains a span that is a block of the tag [tag]. *)
Definition containsBlock (tag html : jsstring) : Prop :=
  ∃ pre attrs content post,
    validAttrs attrs ∧ html = pre ++ blockText tag attrs content ++ post.

(** The tags of the blocks that [htmlToJson] looks for. *)
Definition blockTags : list jsstring :=
  [lit "p"; lit "ul"; lit "ol";
   lit "h1"; lit "h2"; lit "h3"; lit "h4"; lit "h5"; lit "h6"].

(** [nodes] are the nodes of the matches of [r] in [html]: one node per
    match, built by [f] from its content, the matches in document order. *)
Definition builtFrom (f : jsstring → Node) (r : regex) (html : jsstring)
    (nodes : list Node) : Prop :=
  inDocumentOrder 0 (execAll r html)
  ∧ Forall2 (λ m n, ∃ c, group1 m = Some c ∧ n = f c) (execAll r html) nodes.

(** *** The segmenter *)

(** The run that the segmenter emits for a span. *)
Definition spanRun (content : jsstring) (pos : tagPosition) : TextRun :=
  mkText (substring content (contentStart pos) (contentEnd pos)) [posAttr pos].

(** [pos] is a span of [content]: an opening marker of the table at
    [posStart], its closing marker at [contentEnd], the attribute of
    that entry. *)
Definition spanOf (content : jsstring) (pos : tagPosition) : Prop :=
  ∃ tag, tag ∈ formattingTags
    ∧ posAttr pos = tagAttr tag
    ∧ occursAt (tagStart tag) content (posStart pos)
    ∧ occursAt (tagEnd tag) content (contentEnd pos)
    ∧ contentStart pos = posStart pos + length (tagStart tag)
    ∧ contentStart pos ≤ contentEnd pos
    ∧ posEnd pos = contentEnd pos + length (tagEnd tag).

(** No entry of the table has its opening marker in [content] with its
    closing marker somewhere after it. *)
Definition noMarkerPair (content : jsstring) : Prop :=
  ∀ tag i j, tag ∈ formattingTags →
    occursAt (tagStart tag) content i → occursAt (tagEnd tag) content j →
    ¬ (i + length (tagStart tag) ≤ j).

(** The same, as a test: for no entry is a closing marker found after
    the first opening marker. *)
Definition noMarkerPairb (content : jsstring) : bool :=
  forallb (λ tag,
    match indexOf content (tagStart tag) 0 with
    | None => true
    | Some i =>
        match indexOf content (tagEnd tag) (i + length (tagStart tag)) with
        | None => true
        | Some _ => false
        end
    end) formattingTags.

(** All text nodes of a tree. *)
Definition textRunsOfNode (n : Node) : list TextRun :=
  match n with
  | Paragraph children => children
  | ListNode _ items => concat (itemChildren <$> items)
  | Heading _ children => children
  end.

Definition textRuns (root : Root) : list TextRun :=
  concat (textRunsOfNode <$> rootChildren root).

(** A run without flags, or with the one flag of an entry of the table. *)
Definition atMostOneFlag (run : TextRun) : Prop :=
  flags run = [] ∨ ∃ tag, tag ∈ formattingTags ∧ flags run = [tagAttr tag].

(** *** The rows of a CSV file *)

Section RowVocabulary.
Variable inherited : jsstring → bool.

(** The record that [processRecord] returns for [r]. *)
Definition rowOutput (htmlColumn : jsstring) (r : record) : record :=
  if hasProperty inherited r htmlColumn then
    match contentToConvert (getProperty inherited r htmlColumn) with
    | Normal (Some s) =>
        <[htmlColumn := VString (Json.stringify (mkRoot (rootChildrenOf s)))]> r
    | _ => r
    end
  else r.

(** What [processRecord] writes to the console for [r]. *)
Definition rowLog (htmlColumn : jsstring) (index : nat) (r : record) : list logEntry :=
  if hasProperty inherited r htmlColumn then
    match contentToConvert (getProperty inherited r htmlColumn) with
    | Throw e => [WarnRow (index + 1) (message e)]
    | _ => []
    end
  else if (index =? 0)%nat then [WarnColumnNotFound htmlColumn] else [].
End RowVocabulary.

(** *** The marker-stripped form *)

(** The formatting markers: the opening and closing markers of the
    table. *)
Definition markers : list jsstring :=
  concat ((λ tag, [tagStart tag; tagEnd tag]) <$> formattingTags).

(** The formatting-marker-stripped form of a string, in the words of the
    specification "markers removed, inner text preserved, order
    preserved": one pass from left to right that leaves out every
    occurrence of a marker and keeps every other character.  [skip] is
    the number of characters of a marker still to leave out. *)
Fixpoint stripFrom (skip : nat) (s : jsstring) : jsstring :=
  match s with
  | [] => []
  | c :: s' =>
      match skip with
      | S skip' => stripFrom skip' s'
      | O =>
          match find (λ m, startsWith m s) markers with
          | Some m => stripFrom (length m - 1) s'
          | None => c :: stripFrom 0 s'
          end
      end
  end.

Definition stripMarkers (s : jsstring) : jsstring := stripFrom 0 s.

(** No position begins before [lastIndex] or before the end of the
    position in front of it. *)
Fixpoint nonOverlapping (lastIndex : nat) (positions : list tagPosition) : bool :=
  match positions with
  | [] => true
  | pos :: rest => (lastIndex <=? posStart pos)%nat && nonOverlapping (posEnd pos) rest
  end.

(** The spans that the segmenter finds in [content] do not overlap:
    no formatting tag is nested in or interleaved with another one. *)
Definition spansDisjoint (content : jsstring) : bool :=
  nonOverlapping 0 (sortPositions (findTagPositions content)).

(** A marker is [<], then characters other than [<]. *)
Definition markerShape (m : jsstring) : bool :=
  match m with
  | c :: body => (c =? 60)%N && forallb (λ x, negb (x =? 60)%N) body
  | [] => false
  end.

(** *** Blocks and trees, continued *)

(** The closing tag of a block. *)
Definition closeTag (tag : jsstring) : jsstring := lit "</" ++ tag ++ lit ">".

(** [c] is a contiguous part of [s]. *)
Definition infixOf (c s : jsstring) : Prop := ∃ pre post, s = pre ++ c ++ post.

(** A node as the passes build it: a paragraph, a heading and a list
    item hold at least one text node, and the level of a heading is one
    of 1, ..., 6. *)
Definition wellFormedNode (n : Node) : Prop :=
  match n with
  | Paragraph children => children ≠ []
  | ListNode _ items => Forall (λ item, itemChildren item ≠ []) items
  | Heading level children => 1 ≤ level ∧ level ≤ 6 ∧ children ≠ []
  end.

(** A literal in which ['] stands for the double quote. *)
Definition dq (s : string) : jsstring :=
  (λ c, if (c =? 39)%N then 34%N else c) <$> lit s.

(** *** The batch *)

Section BatchVocabulary.
Context {F O : Type}.
Variable inherited : jsstring → bool.
Variable readFileSync : jsstring → F → completion jsstring.
Variable writeFileSync : jsstring → jsstring → F → completion unit * F.
Variable parse : jsstring → O → completion (list record).
Variable stringify : list record → completion jsstring.
Variable globSync : jsstring → F → list jsstring.
Variable ensureDir : jsstring → F → completion unit * F.
Variable basename : jsstring → jsstring.
Variable join : jsstring → jsstring → jsstring.

End BatchVocabulary.

(** *** A small file system, to run the file functions on

    Files are a map from paths to contents; a file holds one record,
    whose HTML cell is the content of the file. *)

Module Toy.

Definition readFileSync (path : jsstring) (fs : gmap jsstring jsstring)
    : completion jsstring :=
  match fs !! path with
  | Some content => Normal content
  | None => Throw (TypeError (lit "ENOENT: no such file or directory"))
  end.

Definition writeFileSync (path data : jsstring) (fs : gmap jsstring jsstring)
    : completion unit * gmap jsstring jsstring :=
  (Normal (), <[path := data]> fs).

Definition parse (content : jsstring) (options : unit) : completion (list record) :=
  Normal [ {[ lit "Body HTML" := VString content ]} ].

Definition cell (r : record) : jsstring :=
  match r !! lit "Body HTML" with
  | Some (VString s) => s
  | _ => []
  end.

Definition stringify (records : list record) : completion jsstring :=
  Normal (concat (cell <$> records)).

Definition globSync (globPattern : jsstring) (fs : gmap jsstring jsstring)
    : list jsstring :=
  if JsString.eqb globPattern (lit "*.csv")
  then [lit "a.csv"; lit "gone.csv"; lit "out/a.csv"] else [].

Definition ensureDir (dir : jsstring) (fs : gmap jsstring jsstring)
    : completion unit * gmap jsstring jsstring :=
  (Normal (), fs).

Definition basename (path : jsstring) : jsstring := path.

Definition join (dir file : jsstring) : jsstring := dir ++ lit "/" ++ file.

Definition disk : gmap jsstring jsstring := {[ lit "a.csv" := lit "<h1>T</h1>" ]}.

End Toy.

(** *** The stream *)

(** The text that a conversion puts into a cell that holds the string
    [s]: the serialized tree, or [s] itself when it is blank. *)
Definition cellOutput (s : jsstring) : jsstring :=
  if truthy s && truthy (trim s) then Json.stringify (mkRoot (rootChildrenOf s)) else s.

(** The cells of a record after the transform, for the column [i]. *)
Definition convertCells (i : nat) (cells : list jsval) : list jsval :=
  match cells !! i with
  | Some (VString s) => <[i := VString (cellOutput s)]> cells
  | _ => cells
  end.

Definition streamOutput (i : nat) (record : row) : row :=
  match record with
  | RowArray cells => RowArray (convertCells i cells)
  | RowObject r => RowObject r
  end.

(** A cell on which the test of the transform throws: a truthy value
    that is not a string. *)
Definition abortsStream (v : jsval) : bool :=
  truthyVal v && match v with VString _ => false | _ => true end.

(** The cell of column [i] of a record; [undefined] when there is none. *)
Definition cellAt (i : nat) (record : row) : jsval :=
  match record with
  | RowArray cells => default VUndefined (cells !! i)
  | RowObject _ => VUndefined
  end.

(** *** Spans, continued *)

(** Does a run carry a flag? *)
Definition flagged (run : TextRun) : bool :=
  match flags run with [] => false | _ => true end.

(** The order of the sort: by the start of the span. *)
Definition startsBefore (p q : tagPosition) : Prop := posStart p ≤ posStart q.

(** *** The flag of a run *)

(** [run] is the run of a span of [content]: some entry of the table
    has its opening marker at the start of a span found and its closing
    marker at the end of the content of that span; the value of the run
    is the text between the two markers and its one flag is the attribute
    of that entry. *)
Definition runOfSpan (content : jsstring) (run : TextRun) : Prop :=
  ∃ pos tag,
    pos ∈ findTagPositions content
    ∧ tag ∈ formattingTags
    ∧ occursAt (tagStart tag) content (posStart pos)
    ∧ occursAt (tagEnd tag) content (contentEnd pos)
    ∧ contentStart pos = posStart pos + length (tagStart tag)
    ∧ run = mkText (substring content (contentStart pos) (contentEnd pos)) [tagAttr tag].

(** A run of plain text: a value and no flag. *)
Definition plainRun (v : jsstring) : TextRun := mkText v [].

(** Plain text and spans in turn: in front of every span the plain
    texts of [texts], then the run of the span; at the end the plain
    texts of [after]. *)
Definition interleaved (content : jsstring) (texts : list (list jsstring))
    (positions : list tagPosition) (after : list jsstring) : list TextRun :=
  concat (zip_with (λ t pos, (plainRun <$> t) ++ [spanRun content pos]) texts positions)
  ++ (plainRun <$> after).

(** ** Facts about strings *)

Section StringFacts.
Implicit Types s t pat : jsstring.

Lemma startsWith_prefix pat s :
  startsWith pat s = true ↔ ∃ t, s = pat ++ t.
Proof.
  revert s. induction pat as [|p pat IH]; intros s; simpl.
  - split; [eauto | done].
  - destruct s as [|c s].
    + split; [done | intros [t Ht]; discriminate].
    + rewrite andb_true_iff, N.eqb_eq, IH. split.
      * intros [-> [t ->]]. eauto.
      * intros [t Ht]. injection Ht as -> ->. eauto.
Qed.

Lemma startsWith_length pat s : startsWith pat s = true → length pat ≤ length s.
Proof.
  intros [t ->]%startsWith_prefix. rewrite length_app. lia.
Qed.

Lemma startsWith_app pat t : startsWith pat (pat ++ t) = true.
Proof. apply startsWith_prefix. eauto. Qed.


Lemma occursAt_drop pat s i :
  occursAt pat s i ↔ i ≤ length s ∧ startsWith pat (drop i s) = true.
Proof.
  split.
  - intros (pre & post & -> & <-). split.
    + rewrite length_app. lia.
    + rewrite drop_app_length. apply startsWith_app.
  - intros [Hi [t Ht]%startsWith_prefix].
    exists (take i s), t. split.
    + by rewrite <- Ht, take_drop.
    + rewrite length_take. lia.
Qed.

Lemma indexOfFrom_Some pat s i k :
  indexOfFrom pat s i = Some k →
  i ≤ k ∧ k - i ≤ length s ∧ startsWith pat (drop (k - i) s) = true
  ∧ ∀ j, j < k - i → startsWith pat (drop j s) = false.
Proof.
  revert i. induction s as [|c s IH]; intros i; simpl.
  - destruct (startsWith pat []) eqn:E; [|done].
    intros [= <-]. replace (i - i) with 0 by lia. repeat split; try lia; done.
  - destruct (startsWith pat (c :: s)) eqn:E.
    + intros [= <-]. replace (i - i) with 0 by lia.
      repeat split; try lia; done.
    + intros (Hi & Hl & Hs & Hmin)%IH.
      replace (k - i) with (S (k - S i)) by lia. simpl.
      repeat split; try lia; [done|].
      intros [|j] Hj; simpl; [done|]. apply Hmin. lia.
Qed.

Lemma indexOfFrom_None pat s i :
  indexOfFrom pat s i = None → ∀ j, j ≤ length s → startsWith pat (drop j s) = false.
Proof.
  revert i. induction s as [|c s IH]; intros i; simpl.
  - destruct (startsWith pat []) eqn:E; [done|].
    intros _ j Hj. by rewrite drop_nil.
  - destruct (startsWith pat (c :: s)) eqn:E; [done|].
    intros H [|j] Hj; simpl; [done|]. eapply IH; [done|lia].
Qed.

(** [indexOf] returns the first occurrence at or after the position. *)
Lemma indexOf_Some s pat position k :
  indexOf s pat position = Some k →
  position `min` length s ≤ k ∧ occursAt pat s k
  ∧ ∀ j, position ≤ j → j < k → ¬ occursAt pat s j.
Proof.
  unfold indexOf. intros (Hi & Hl & Hs & Hmin)%indexOfFrom_Some.
  rewrite length_drop in Hl. rewrite drop_drop in Hs.
  split; [done|]. split.
  - apply occursAt_drop. split; [lia|].
    destruct (decide (position ≤ length s)).
    + by replace k with (position + (k - position `min` length s)) by lia.
    + rewrite drop_ge in Hs by lia. by rewrite drop_ge by lia.
  - intros j Hj1 Hj2 [_ Hocc]%occursAt_drop.
    specialize (Hmin (j - position)). rewrite drop_drop in Hmin.
    replace (position + (j - position)) with j in Hmin by lia.
    rewrite Hmin in Hocc; [done | lia].
Qed.

Lemma indexOf_None s pat position :
  indexOf s pat position = None → ∀ j, position ≤ j → ¬ occursAt pat s j.
Proof.
  unfold indexOf. intros H j Hj [Hl Hocc]%occursAt_drop.
  eapply indexOfFrom_None with (j := j - position) in H.
  - rewrite drop_drop in H. replace (position + (j - position)) with j in H by lia.
    congruence.
  - rewrite length_drop. lia.
Qed.

Lemma substring_take_drop s a b :
  a ≤ b → b ≤ length s → substring s a b = take (b - a) (drop a s).
Proof.
  intros Hab Hb. unfold substring.
  replace (a `min` length s) with a by lia.
  replace (b `min` length s) with b by lia.
  replace (a `max` b) with b by lia. replace (a `min` b) with a by lia. done.
Qed.

Lemma substringFrom_drop s a : substringFrom s a = drop a s.
Proof.
  unfold substringFrom, substring.
  replace (length s `min` length s) with (length s) by lia.
  replace ((a `min` length s) `max` length s) with (length s) by lia.
  replace ((a `min` length s) `min` length s) with (a `min` length s) by lia.
  rewrite take_ge by (rewrite length_drop; lia).
  destruct (decide (a ≤ length s)).
  - by replace (a `min` length s) with a by lia.
  - rewrite !drop_ge; [done | lia | lia].
Qed.

Lemma substring_same (s : jsstring) a : substring s a a = [].
Proof.
  unfold substring.
  replace ((a `min` length s) `max` (a `min` length s) - (a `min` length s) `min` (a `min` length s))
    with 0 by lia.
  done.
Qed.

Lemma truthy_true s : truthy s = true ↔ s ≠ [].
Proof. by destruct s. Qed.

Lemma trimStart_spaces s : forallb isSpace s = true → trimStart s = [].
Proof.
  induction s as [|c s IH]; simpl; [done|].
  intros [Hc Hs]%andb_true_iff. rewrite Hc. auto.
Qed.

(** A string of white space trims to the empty string. *)
Lemma trim_spaces s : forallb isSpace s = true → trim s = [].
Proof. intros H. unfold trim. by rewrite (trimStart_spaces _ H). Qed.

End StringFacts.

(** ** Facts about the matcher *)

Section RegexFacts.


Lemma take_add {A} (l : list A) n1 n2 :
  take (n1 + n2) l = take n1 l ++ take n2 (drop n1 l).
Proof.
  revert l. induction n1 as [|n1 IH]; intros [|a l]; simpl; try done.
  - by rewrite take_nil.
  - by rewrite IH.
Qed.

Section Sound.
Context {R : Type}.
Implicit Types (s : jsstring) (k : jsstring → nat → option R).

Lemma starGreedy_sound c s i k x :
  starGreedy c s i k = Some x →
  ∃ n, k (drop n s) (i + n) = Some x ∧ n ≤ length s
       ∧ forallb c (take n s) = true.
Proof.
  revert i. induction s as [|a s IH]; intros i; simpl.
  - intros H. exists 0. by rewrite Nat.add_0_r.
  - destruct (c a) eqn:Ha.
    + destruct (starGreedy c s (S i) k) eqn:E.
      * intros [= ->]. destruct (IH _ E) as (n & Hk & Hn & Hc).
        exists (S n). simpl. replace (i + S n) with (S i + n) by lia.
        rewrite Ha, Hc. split_and!; [done | lia | done].
      * intros H. exists 0. rewrite Nat.add_0_r. split_and!; [done | lia | done].
    + intros H. exists 0. rewrite Nat.add_0_r. split_and!; [done | lia | done].
Qed.

Lemma starLazy_sound c s i k x :
  starLazy c s i k = Some x →
  ∃ n, k (drop n s) (i + n) = Some x ∧ n ≤ length s
       ∧ forallb c (take n s) = true
       ∧ ∀ n', n' < n → k (drop n' s) (i + n') = None.
Proof.
  revert i. induction s as [|a s IH]; intros i; simpl.
  - destruct (k [] i) eqn:E; [|done].
    intros [= ->]. exists 0. rewrite Nat.add_0_r. split_and!; [done | lia | done | lia].
  - destruct (k (a :: s) i) eqn:E.
    + intros [= ->]. exists 0. rewrite Nat.add_0_r.
      split_and!; [done | simpl; lia | done | lia].
    + destruct (c a) eqn:Ha; [|done].
      intros (n & Hk & Hn & Hc & Hmin)%IH. exists (S n). simpl.
      replace (i + S n) with (S i + n) by lia. rewrite Ha, Hc.
      split_and!; [done | lia | done |].
      intros [|n'] Hn'; simpl.
      * by rewrite Nat.add_0_r.
      * replace (i + S n') with (S i + n') by lia. apply Hmin. lia.
Qed.

(** A successful match took [n] characters, a string of the language,
    and then succeeded in its continuation. *)
Lemma rmatch_sound r s i cap (k : @cont R) x :
  rmatch r s i cap k = Some x →
  ∃ n cap', k (drop n s) (i + n) cap' = Some x
            ∧ minLen r ≤ n ∧ n ≤ length s
            ∧ lang r (take n s)
            ∧ (is_Some cap ∨ hasGroup r = true → is_Some cap').
Proof.
  revert s i cap k x.
  induction r as [cs|c|g c|r IH|r1 IH1 r2 IH2|r IH]; intros s i cap k x; simpl.
  - destruct (startsWith cs s) eqn:E; [|done].
    intros H. exists (length cs), cap.
    pose proof (startsWith_length _ _ E).
    apply startsWith_prefix in E as [t ->].
    rewrite take_app_length. intuition (done || lia).
  - destruct s as [|a s]; [done|]. destruct (c a) eqn:Ha; [|done].
    intros H. exists 1, cap. simpl. rewrite drop_0, take_0, Nat.add_1_r.
    split_and!; [done | lia | lia | by exists a | intuition done].
  - destruct g.
    + intros (n & Hk & Hn & Hc)%starGreedy_sound. exists n, cap.
      intuition (done || lia).
    + intros (n & Hk & Hn & Hc & _)%starLazy_sound. exists n, cap.
      intuition (done || lia).
  - destruct (rmatch r s i cap _) eqn:E.
    + intros [= ->]. apply IH in E as (n & cap' & Hk & _ & Hn & Hl & Hcap).
      destruct (i + n =? i)%nat; [done|].
      exists n, cap'. intuition (done || lia).
    + intros H. exists 0, cap. rewrite Nat.add_0_r, drop_0, take_0.
      intuition (done || lia).
  - intros (n1 & cap1 & H2 & Hm1 & Hn1 & Hl1 & Hcap1)%IH1.
    apply IH2 in H2 as (n2 & cap2 & Hk & Hm2 & Hn2 & Hl2 & Hcap2).
    rewrite length_drop in Hn2. rewrite drop_drop in Hk.
    exists (n1 + n2), cap2. rewrite Nat.add_assoc.
    split_and!; [done | lia | lia | |].
    + rewrite take_add. eauto.
    + rewrite orb_true_iff. intuition.
  - intros (n & cap' & Hk & Hm & Hn & Hl & _)%IH.
    exists n, (Some (i, i + n)). intuition (done || lia || eauto).
Qed.
End Sound.

Lemma execFrom_Some r str s i m :
  execFrom r str s i = Some m →
  i ≤ index m ∧ index m + minLen r ≤ matchEnd m
  ∧ matchEnd m ≤ i + length s
  ∧ lang r (take (matchEnd m - index m) (drop (index m - i) s))
  ∧ (hasGroup r = true → is_Some (group1 m)).
Proof.
  revert i. induction s as [|a s IH]; intros i; simpl.
  - destruct (rmatch r [] i None _) eqn:E; [|done].
    intros [= ->]. apply rmatch_sound in E as (n & cap' & [= <-] & Hm & Hn & Hl & Hcap).
    simpl in *. replace (i + n - i) with n by lia. replace (i - i) with 0 by lia.
    split_and!; try lia; [done|].
    intros Hg. destruct Hcap as [c ->]; [by right|]. by eexists.
  - destruct (rmatch r (a :: s) i None _) eqn:E.
    + intros [= ->]. apply rmatch_sound in E as (n & cap' & [= <-] & Hm & Hn & Hl & Hcap).
      simpl in *. replace (i + n - i) with n by lia. replace (i - i) with 0 by lia.
      split_and!; try lia; [done|].
      intros Hg. destruct Hcap as [c ->]; [by right|]. by eexists.
    + intros (H1 & H2 & H3 & H4 & H5)%IH.
      replace (index m - i) with (S (index m - S i)) by lia.
      split_and!; try lia; done.
Qed.

(** A match begins at or after [lastIndex], is not shorter than the
    regular expression allows, ends inside the string and is a string of
    the language. *)
Lemma exec_Some r str lastIndex m :
  exec r str lastIndex = Some m →
  lastIndex ≤ index m ∧ index m + minLen r ≤ matchEnd m
  ∧ matchEnd m ≤ length str
  ∧ lang r (take (matchEnd m - index m) (drop (index m) str))
  ∧ (hasGroup r = true → is_Some (group1 m)).
Proof.
  unfold exec. destruct (length str <? lastIndex)%nat eqn:E; [done|].
  apply Nat.ltb_ge in E.
  intros (H1 & H2 & H3 & H4 & H5)%execFrom_Some.
  rewrite length_drop in H3. rewrite drop_drop in H4.
  replace (lastIndex + (index m - lastIndex)) with (index m) in H4 by lia.
  split_and!; try lia; done.
Qed.

(** The loop does not depend on its fuel, once there is enough of it:
    the fuel of [execAll] never runs out. *)
Lemma execLoop_fuel r str :
  0 < minLen r →
  ∀ fuel1 fuel2 lastIndex,
    length str < lastIndex + fuel1 → length str < lastIndex + fuel2 →
    execLoop fuel1 r str lastIndex = execLoop fuel2 r str lastIndex.
Proof.
  intros Hr. induction fuel1 as [|fuel1 IH]; intros fuel2 lastIndex H1 H2.
  - destruct fuel2 as [|fuel2]; [done|]. simpl.
    destruct (exec r str lastIndex) as [m|] eqn:E; [|done].
    apply exec_Some in E. lia.
  - destruct fuel2 as [|fuel2]; simpl.
    + destruct (exec r str lastIndex) as [m|] eqn:E; [|done].
      apply exec_Some in E. lia.
    + destruct (exec r str lastIndex) as [m|] eqn:E; [|done].
      f_equal. apply exec_Some in E. apply IH; lia.
Qed.


Lemma execLoop_order r str fuel lastIndex :
  0 < minLen r → inDocumentOrder lastIndex (execLoop fuel r str lastIndex).
Proof.
  intros Hr. revert lastIndex. induction fuel as [|fuel IH]; intros lastIndex; simpl; [done|].
  destruct (exec r str lastIndex) as [m|] eqn:E; [|done]. simpl.
  apply exec_Some in E. repeat split; [lia | lia | apply IH].
Qed.

Lemma execLoop_group r str fuel lastIndex :
  hasGroup r = true →
  Forall (λ m, is_Some (group1 m)) (execLoop fuel r str lastIndex).
Proof.
  intros Hr. revert lastIndex. induction fuel as [|fuel IH]; intros lastIndex; simpl; [done|].
  destruct (exec r str lastIndex) as [m|] eqn:E; [|done].
  constructor; [|apply IH]. apply exec_Some in E. by apply E.
Qed.

Lemma blockRegex_minLen tag : 0 < minLen (blockRegex tag).
Proof. simpl. lia. Qed.

Lemma blockRegex_hasGroup tag : hasGroup (blockRegex tag) = true.
Proof. done. Qed.

Lemma execAll_order tag str : inDocumentOrder 0 (execAll (blockRegex tag) str).
Proof. apply execLoop_order, blockRegex_minLen. Qed.

Lemma execAll_group tag str :
  Forall (λ m, is_Some (group1 m)) (execAll (blockRegex tag) str).
Proof. apply execLoop_group, blockRegex_hasGroup. Qed.

Lemma execAll_fuel tag str fuel :
  length str < fuel → execLoop fuel (blockRegex tag) str 0 = execAll (blockRegex tag) str.
Proof.
  intros H. apply execLoop_fuel; [apply blockRegex_minLen | lia | lia].
Qed.

End RegexFacts.

(** ** What the converter computes

    The nodes of the tree as functions of the contents of the matches,
    and the proof that [htmlToJson] returns them, pass after pass. *)


Section Passes.
Implicit Types (html : jsstring) (children : list Node).

Lemma forEach_append {A} (xs : list A) (body : A → eff (list Node) unit)
    (h : A → list Node) children :
  Forall (λ x, ∀ children, body x children = (Normal (), children ++ h x)) xs →
  forEach xs body children = (Normal (), children ++ concat (h <$> xs)).
Proof.
  intros Hxs. revert children.
  induction Hxs as [|x xs Hx _ IH]; intros children; simpl.
  - by rewrite app_nil_r.
  - unfold mbind, eff_bind. rewrite Hx, IH. by rewrite <- (assoc_L (++)).
Qed.

Lemma forEach_matches (ms : list matchResult) (body : matchResult → eff (list Node) unit)
    (f : jsstring → Node) children :
  Forall (λ m, is_Some (group1 m)) ms →
  (∀ m c children, group1 m = Some c → body m children = (Normal (), children ++ [f c])) →
  forEach ms body children = (Normal (), children ++ (f <$> omap group1 ms)).
Proof.
  intros Hms Hbody. revert children.
  induction Hms as [|m ms [c Hc] _ IH]; intros children; simpl.
  - by rewrite app_nil_r.
  - unfold mbind, eff_bind. rewrite (Hbody _ _ _ Hc), IH, Hc. simpl.
    by rewrite <- (assoc_L (++)).
Qed.

Lemma paragraphBlock_eq m c children :
  group1 m = Some c →
  paragraphBlock m children = (Normal (), children ++ [paragraphNode c]).
Proof.
  intros Hc. unfold paragraphBlock, paragraphChildren, paragraphNode, isBlank.
  rewrite Hc. simpl. unfold mbind, eff_bind, liftC. simpl.
  by destruct (negb (truthy (trim c)) || eqb (trim c) (lit "<br>")).
Qed.

Lemma listItemsLoop_eq (ms : list matchResult) items :
  Forall (λ m, is_Some (group1 m)) ms →
  listItemsLoop ms items = Normal (items ++ (listItemNode <$> omap group1 ms)).
Proof.
  intros Hms. revert items.
  induction Hms as [|m ms [c Hc] _ IH]; intros items; simpl.
  - by rewrite app_nil_r.
  - unfold listItemBlock. rewrite Hc. simpl. rewrite IH.
    by rewrite <- (assoc_L (++)).
Qed.

Lemma listBlock_eq lt m c children :
  group1 m = Some c →
  listBlock lt m children = (Normal (), children ++ [listNode lt c]).
Proof.
  intros Hc. unfold listBlock, processListItems, listNode, contents.
  rewrite Hc. simpl. unfold mbind, eff_bind, liftC.
  by rewrite listItemsLoop_eq by apply execAll_group.
Qed.

Lemma headingBlock_eq level m c children :
  group1 m = Some c →
  headingBlock level m children = (Normal (), children ++ [headingNode level c]).
Proof. intros Hc. unfold headingBlock. by rewrite Hc. Qed.

Lemma processParagraphs_eq html children :
  processParagraphs html children = (Normal (), children ++ paragraphNodes html).
Proof.
  apply forEach_matches; [apply execAll_group|].
  intros. by apply paragraphBlock_eq.
Qed.

Lemma processLists_eq html children :
  processLists html children
  = (Normal (), children ++ listNodes unordered html ++ listNodes ordered html).
Proof.
  unfold processLists, mbind, eff_bind.
  rewrite (forEach_matches _ _ (listNode unordered));
    [|apply execAll_group | intros; by apply listBlock_eq].
  rewrite (forEach_matches _ _ (listNode ordered));
    [|apply execAll_group | intros; by apply listBlock_eq].
  by rewrite <- (assoc_L (++)).
Qed.

Lemma processHeadings_eq html children :
  processHeadings html children = (Normal (), children ++ headingNodes html).
Proof.
  apply forEach_append. apply Forall_forall. intros level _ children'.
  apply forEach_matches; [apply execAll_group|].
  intros. by apply headingBlock_eq.
Qed.


(** [htmlToJson] returns the root of these children and writes nothing
    to the console. *)
Lemma htmlToJson_eq html con :
  htmlToJson html con = (Normal (mkRoot (rootChildrenOf html)), con).
Proof.
  unfold htmlToJson, htmlToJsonWith, htmlToJsonFrame, tryCatch, onResult.
  unfold mbind, eff_bind. simpl.
  rewrite processParagraphs_eq, processLists_eq, processHeadings_eq.
  simpl. unfold rootChildrenOf. by rewrite <- !(assoc_L (++)).
Qed.

End Passes.

(** ** Tests of the model on the scenarios of the specification *)

Example exec_p1 :
  exec (blockRegex (lit "p")) (lit "x<p class=a>hi</p><p>yo</p>") 0
  = Some (MatchResult 1 18 (Some (lit "hi"))).
Proof. vm_compute. reflexivity. Qed.

Example execAll_p1 :
  execAll (blockRegex (lit "p")) (lit "x<p class=a>hi</p><p>yo</p><pre>z</p>")
  = [MatchResult 1 18 (Some (lit "hi")); MatchResult 18 27 (Some (lit "yo"))].
Proof. vm_compute. reflexivity. Qed.

Example segment_hello :
  parseFormattedString (lit "Hello <em>world</em>") []
  = [mkText (lit "Hello ") []; mkText (lit "world") [italic]].
Proof. vm_compute. reflexivity. Qed.

Example segment_nested :
  parseFormattedString (lit "<b><i>x</i></b>") []
  = [mkText (lit "<i>x</i>") [bold]; mkText (lit "x") [italic]; mkText (lit "</b>") []].
Proof. vm_compute. reflexivity. Qed.

Example convert_hello :
  htmlToJson (lit "<p>Hello <em>world</em></p>") []
  = (Normal (mkRoot [Paragraph [mkText (lit "Hello ") []; mkText (lit "world") [italic]]]), []).
Proof. vm_compute. reflexivity. Qed.

Example convert_list :
  returned (htmlToJson (lit "<ul><li>One</li><li>Two</li></ul>") [])
  = Some (mkRoot [ListNode unordered [mkListItem [mkText (lit "One") []];
                                      mkListItem [mkText (lit "Two") []]]]).
Proof. vm_compute. reflexivity. Qed.

Example convert_heading :
  returned (htmlToJson (lit "<h2>Title</h2>") [])
  = Some (mkRoot [Heading 2 [mkText (lit "Title") []]]).
Proof. vm_compute. reflexivity. Qed.

Example convert_order :
  returned (htmlToJson (lit "<p>a</p><h1>b</h1><p>c</p>") [])
  = Some (mkRoot [Paragraph [mkText (lit "a") []]; Paragraph [mkText (lit "c") []];
                  Heading 1 [mkText (lit "b") []]]).
Proof. vm_compute. reflexivity. Qed.

(** ** Blocks, declaratively *)

Section Blocks.
Implicit Types (html tag : jsstring).

Lemma lang_blockRegex tag w :
  lang (blockRegex tag) w → ∃ attrs c, validAttrs attrs ∧ w = blockText tag attrs c.
Proof.
  simpl. intros (w1 & w2 & -> & -> & w3 & w4 & -> & Hopt & w5 & w6 & -> & -> & w7 & w8 & -> & _ & ->).
  exists w3, w7. split; [|done].
  destruct Hopt as [->|(a & b & -> & (x & -> & Hx) & Hb)]; [by left|].
  right. by exists x, b.
Qed.

Lemma exec_containsBlock tag html lastIndex m :
  exec (blockRegex tag) html lastIndex = Some m → containsBlock tag html.
Proof.
  intros (_ & _ & _ & Hl & _)%exec_Some.
  apply lang_blockRegex in Hl as (attrs & c & Hattrs & Hw).
  exists (take (index m) html), attrs, c, (drop (matchEnd m - index m) (drop (index m) html)).
  split; [done|]. by rewrite <- Hw, take_drop, take_drop.
Qed.

(** The matcher is complete: it succeeds on every string of the language
    after which the continuation succeeds. *)
Lemma starGreedy_fallback {R} c (s : jsstring) i (k : jsstring → nat → option R) :
  is_Some (k s i) → is_Some (starGreedy c s i k).
Proof.
  intros Hk. destruct s as [|a s]; simpl; [done|].
  destruct (c a); [|done]. by destruct (starGreedy c s (S i) k).
Qed.

Lemma starGreedy_complete {R} c (w s : jsstring) i (k : jsstring → nat → option R) :
  forallb c w = true → is_Some (k s (i + length w)) → is_Some (starGreedy c (w ++ s) i k).
Proof.
  revert i. induction w as [|x w IH]; intros i; simpl.
  - rewrite Nat.add_0_r. intros _. apply starGreedy_fallback.
  - intros [Hx Hw]%andb_true_iff Hk. rewrite Hx.
    destruct (starGreedy c (w ++ s) (S i) k) eqn:E; [done|].
    destruct (IH (S i) Hw) as [r Hr].
    + by replace (S i + length w) with (i + S (length w)) by lia.
    + congruence.
Qed.

Lemma starLazy_complete {R} c (w s : jsstring) i (k : jsstring → nat → option R) :
  forallb c w = true → is_Some (k s (i + length w)) → is_Some (starLazy c (w ++ s) i k).
Proof.
  revert i. induction w as [|x w IH]; intros i; simpl.
  - rewrite Nat.add_0_r. intros _ Hk. destruct s; simpl; by destruct (k _ i).
  - intros [Hx Hw]%andb_true_iff Hk.
    destruct (k (x :: w ++ s) i); [done|]. rewrite Hx. apply IH; [done|].
    by replace (S i + length w) with (i + S (length w)) by lia.
Qed.

Lemma rmatch_complete {R} r (w s : jsstring) i cap (k : @cont R) :
  lang r w →
  (∀ cap', is_Some (k s (i + length w) cap')) →
  is_Some (rmatch r (w ++ s) i cap k).
Proof.
  revert w s i cap k.
  induction r as [cs|c|g c|r IH|r1 IH1 r2 IH2|r IH]; intros w s i cap k; simpl.
  - intros -> Hk. by rewrite startsWith_app, drop_app_length.
  - intros (x & -> & Hx) Hk. simpl. rewrite Hx. rewrite <- Nat.add_1_r. apply Hk.
  - intros Hw Hk. destruct g.
    + by apply starGreedy_complete.
    + by apply starLazy_complete.
  - intros Hw Hk.
    destruct (rmatch r (w ++ s) i cap _) eqn:E; [done|].
    destruct w as [|x w].
    + simpl in *. specialize (Hk cap). by rewrite Nat.add_0_r in Hk.
    + destruct Hw as [|Hw]; [done|].
      eapply (IH _ s i cap) in Hw as [y Hy]; [by rewrite E in Hy|].
      intros cap'. simpl. replace (i + S (length w) =? i)%nat with false; [apply Hk|].
      symmetry. apply Nat.eqb_neq. lia.
  - intros (w1 & w2 & -> & H1 & H2) Hk. rewrite <- (assoc_L (++)).
    apply IH1; [done|]. intros cap'. apply IH2; [done|].
    intros cap''. rewrite <- Nat.add_assoc, <- length_app. apply Hk.
  - intros Hw Hk. apply IH; [done|]. intros cap'. apply Hk.
Qed.

Lemma execFrom_complete r str (pre w post : jsstring) i :
  lang r w → is_Some (execFrom r str (pre ++ w ++ post) i).
Proof.
  intros Hw. revert i. induction pre as [|a pre IH]; intros i.
  - assert (is_Some (rmatch r (w ++ post) i None
              (λ _ j cap, Some (MatchResult i j ((λ '(a, b), substring str a b) <$> cap)))))
      as [m Hm] by (apply rmatch_complete; [done | by eexists]).
    simpl. destruct (w ++ post); simpl in *; by rewrite Hm.
  - simpl. destruct (rmatch r _ i None _); [done|]. apply IH.
Qed.

Lemma blockText_lang tag attrs c :
  validAttrs attrs → lang (blockRegex tag) (blockText tag attrs c).
Proof.
  intros Hattrs. simpl. unfold blockText.
  exists (lit "<" ++ tag), (attrs ++ lit ">" ++ c ++ lit "</" ++ tag ++ lit ">").
  split_and!; [done | done |].
  exists attrs, (lit ">" ++ c ++ lit "</" ++ tag ++ lit ">"). split_and!; [done | |].
  - destruct Hattrs as [->|(x & rest & -> & Hx & Hrest)]; [by left|].
    right. exists [x], rest. split_and!; [done | by exists x | done].
  - exists (lit ">"), (c ++ lit "</" ++ tag ++ lit ">"). split_and!; [done | done |].
    exists c, (lit "</" ++ tag ++ lit ">"). split_and!; [done | | done].
    clear. by induction c.
Qed.

(** [exec] finds a match exactly when the input contains a block. *)
Lemma exec_iff_containsBlock tag html :
  is_Some (exec (blockRegex tag) html 0) ↔ containsBlock tag html.
Proof.
  split.
  - intros [m Hm]. by eapply exec_containsBlock.
  - intros (pre & attrs & c & post & Hattrs & ->).
    unfold exec.
    replace (length _ <? 0)%nat with false by (symmetry; apply Nat.ltb_ge; lia).
    rewrite drop_0. by apply execFrom_complete, blockText_lang.
Qed.

Lemma exec_None_no_block tag html :
  exec (blockRegex tag) html 0 = None → ¬ containsBlock tag html.
Proof.
  intros E [m Hm]%exec_iff_containsBlock. congruence.
Qed.

Lemma execAll_no_block tag html :
  ¬ containsBlock tag html → execAll (blockRegex tag) html = [].
Proof.
  intros Hno. unfold execAll. simpl.
  destruct (exec (blockRegex tag) html 0) eqn:E; [|done].
  by apply exec_containsBlock in E.
Qed.

Lemma contents_no_block tag html :
  ¬ containsBlock tag html → contents (blockRegex tag) html = [].
Proof. intros H. unfold contents. by rewrite execAll_no_block. Qed.

(** A block begins with the character [<]. *)
Lemma containsBlock_lt tag html : containsBlock tag html → 60%N ∈ html.
Proof.
  intros (pre & attrs & c & post & _ & ->).
  apply elem_of_app. right. unfold blockText. simpl. left.
Qed.

Lemma headingRegex_tag level :
  level ∈ seq 1 6 → ∃ tag, tag ∈ blockTags ∧ headingRegex level = blockRegex tag.
Proof.
  intros H. unfold blockTags.
  repeat (apply elem_of_cons in H as [->|H];
          [eexists; split; [|reflexivity]; set_solver|]).
  by apply elem_of_nil in H.
Qed.


Lemma builtFrom_contents f tag html :
  builtFrom f (blockRegex tag) html (f <$> contents (blockRegex tag) html).
Proof.
  split; [apply execAll_order|]. unfold contents.
  pose proof (execAll_group tag html) as Hms.
  induction Hms as [|m ms [c Hc] _ IH]; simpl; [constructor|].
  rewrite Hc. simpl. constructor; eauto.
Qed.

Lemma concat_nil_all {A B} (f : A → list B) (l : list A) :
  (∀ y, y ∈ l → f y = []) → concat (f <$> l) = [].
Proof.
  induction l as [|b l IH]; intros Hf; [done|].
  rewrite fmap_cons, concat_cons, Hf, IH; [done | | ]; set_solver.
Qed.

Lemma concat_single {A B} (f : A → list B) (l : list A) x :
  NoDup l → x ∈ l → (∀ y, y ∈ l → y ≠ x → f y = []) → concat (f <$> l) = f x.
Proof.
  intros Hnd Hx Hf. induction Hnd as [|a l Ha Hnd IH]; [by apply elem_of_nil in Hx|].
  rewrite fmap_cons, concat_cons. apply elem_of_cons in Hx as [->|Hx].
  - rewrite concat_nil_all, app_nil_r; [done|].
    intros y Hy. apply Hf; set_solver.
  - rewrite Hf, IH; [done | done | | | ]; set_solver.
Qed.

End Blocks.

(** ** Facts about the segmenter *)

Section Segmenter.
Implicit Types (content : jsstring) (pos : tagPosition) (tag : formattingTag).

Lemma occursAt_length pat s i : occursAt pat s i → i + length pat ≤ length s.
Proof. intros (pre & post & -> & <-). rewrite !length_app. lia. Qed.

Lemma scanTag_spans fuel content tag startIndex tagPositions :
  tag ∈ formattingTags →
  ∃ new, scanTag fuel content tag startIndex tagPositions = tagPositions ++ new
         ∧ Forall (spanOf content) new.
Proof.
  intros Htag. revert startIndex tagPositions.
  induction fuel as [|fuel IH]; intros startIndex tagPositions; simpl.
  { exists []. by rewrite app_nil_r. }
  destruct (indexOf content (tagStart tag) startIndex) as [i|] eqn:Ei;
    [|exists []; by rewrite app_nil_r].
  destruct (indexOf content (tagEnd tag) (i + length (tagStart tag))) as [j|] eqn:Ej;
    [|exists []; by rewrite app_nil_r].
  edestruct IH as (new & -> & Hnew). eexists (_ :: new).
  rewrite <- (assoc_L (++)). split; [done|]. constructor; [|done].
  apply indexOf_Some in Ei as (_ & Hi & _).
  apply indexOf_Some in Ej as (Hij & Hj & _).
  pose proof (occursAt_length _ _ _ Hi). exists tag. simpl.
  split_and!; try done; lia.
Qed.

Lemma findTagPositions_spans content : Forall (spanOf content) (findTagPositions content).
Proof.
  unfold findTagPositions.
  assert (∀ tags acc, (∀ tag, tag ∈ tags → tag ∈ formattingTags) →
            Forall (spanOf content) acc →
            Forall (spanOf content)
              (fold_left (λ tagPositions tag,
                 scanTag (S (length content)) content tag 0 tagPositions) tags acc)) as H.
  { induction tags as [|tag tags IH]; intros acc Htags Hacc; [done|].
    cbn [fold_left]. apply IH; [set_solver|].
    destruct (scanTag_spans (S (length content)) content tag 0 acc) as (new & -> & Hnew);
      [set_solver|].
    by apply Forall_app. }
  by apply H.
Qed.

(** The loop of a tag does not depend on its fuel, once there is
    enough of it: the fuel of [findTagPositions] never runs out. *)
Lemma scanTag_fuel content tag :
  0 < length (tagStart tag) →
  ∀ fuel1 fuel2 startIndex tagPositions,
    length content < startIndex + fuel1 → length content < startIndex + fuel2 →
    scanTag fuel1 content tag startIndex tagPositions
    = scanTag fuel2 content tag startIndex tagPositions.
Proof.
  intros Htag. induction fuel1 as [|fuel1 IH]; intros fuel2 startIndex tagPositions H1 H2.
  - destruct fuel2 as [|fuel2]; [done|]. simpl.
    destruct (indexOf content (tagStart tag) startIndex) as [i|] eqn:Ei; [|done].
    apply indexOf_Some in Ei as (Hi & Ho%occursAt_length & _). lia.
  - destruct fuel2 as [|fuel2]; simpl.
    + destruct (indexOf content (tagStart tag) startIndex) as [i|] eqn:Ei; [|done].
      apply indexOf_Some in Ei as (Hi & Ho%occursAt_length & _). lia.
    + destruct (indexOf content (tagStart tag) startIndex) as [i|] eqn:Ei; [|done].
      destruct (indexOf content (tagEnd tag) (i + length (tagStart tag))) as [j|] eqn:Ej;
        [|done].
      apply indexOf_Some in Ei as (Hi & Ho%occursAt_length & _).
      apply indexOf_Some in Ej as (Hj & _ & _).
      apply IH; lia.
Qed.

Lemma indexOf_is_Some s pat position j :
  position ≤ j → occursAt pat s j → is_Some (indexOf s pat position).
Proof.
  intros Hj Ho. destruct (indexOf s pat position) eqn:E; [done|].
  by eapply indexOf_None in E.
Qed.

Lemma noMarkerPairb_sound content : noMarkerPairb content = true → noMarkerPair content.
Proof.
  unfold noMarkerPairb. rewrite forallb_forall.
  intros H tag i j Htag%list_elem_of_In Hi Hj Hij.
  specialize (H _ Htag). simpl in H.
  destruct (indexOf content (tagStart tag) 0) as [i0|] eqn:Ei0.
  - apply indexOf_Some in Ei0 as (_ & _ & Hfirst).
    assert (i0 ≤ i) by (destruct (decide (i0 ≤ i)); [done|]; exfalso;
                        apply (Hfirst i); [lia | lia | done]).
    destruct (indexOf_is_Some content (tagEnd tag) (i0 + length (tagStart tag)) j)
      as [k Hk]; [lia | done |].
    by rewrite Hk in H.
  - by eapply indexOf_None in Ei0; [|apply Nat.le_0_l].
Qed.

Lemma scanTag_noMarkerPair fuel content tag startIndex tagPositions :
  tag ∈ formattingTags → noMarkerPair content →
  scanTag fuel content tag startIndex tagPositions = tagPositions.
Proof.
  intros Htag Hno. destruct fuel as [|fuel]; simpl; [done|].
  destruct (indexOf content (tagStart tag) startIndex) as [i|] eqn:Ei; [|done].
  destruct (indexOf content (tagEnd tag) (i + length (tagStart tag))) as [j|] eqn:Ej;
    [|done].
  apply indexOf_Some in Ei as (_ & Hi & _).
  apply indexOf_Some in Ej as (Hij & Hj & _).
  pose proof (occursAt_length _ _ _ Hi).
  exfalso. apply (Hno tag i j); [done | done | done | lia].
Qed.

Lemma findTagPositions_noMarkerPair content :
  noMarkerPair content → findTagPositions content = [].
Proof.
  intros Hno. unfold findTagPositions.
  assert (∀ tags acc, (∀ tag, tag ∈ tags → tag ∈ formattingTags) →
            fold_left (λ tagPositions tag,
              scanTag (S (length content)) content tag 0 tagPositions) tags acc = acc) as H.
  { induction tags as [|tag tags IH]; intros acc Htags; [done|].
    cbn [fold_left]. rewrite scanTag_noMarkerPair; [|set_solver|done].
    apply IH. set_solver. }
  by apply H.
Qed.

(** Sorting permutes. *)
Lemma insertPos_perm pos (l : list tagPosition) : insertPos pos l ≡ₚ pos :: l.
Proof.
  induction l as [|q l IH]; simpl; [done|].
  destruct (posStart pos <=? posStart q)%nat; [done|].
  rewrite IH. apply Permutation_swap.
Qed.

Lemma sortPositions_perm (l : list tagPosition) : sortPositions l ≡ₚ l.
Proof.
  induction l as [|p l IH]; simpl; [done|]. by rewrite insertPos_perm, IH.
Qed.

Lemma sortPositions_nil (l : list tagPosition) : sortPositions l = [] → l = [].
Proof.
  intros H. apply Permutation_nil_r. rewrite <- H. by rewrite sortPositions_perm.
Qed.

(** What the walk pushes, apart from the array it started with. *)
Lemma walkPositions_app content (positions : list tagPosition) lastIndex
    (childrenArray : list TextRun) :
  walkPositions content positions lastIndex childrenArray
  = (childrenArray ++ (walkPositions content positions lastIndex []).1,
     (walkPositions content positions lastIndex []).2).
Proof.
  revert lastIndex childrenArray.
  induction positions as [|pos rest IH]; intros lastIndex childrenArray; simpl.
  - by rewrite app_nil_r.
  - rewrite IH. rewrite (IH _ (_ ++ [_])). simpl. f_equal.
    destruct (lastIndex <? posStart pos)%nat; [|by rewrite <- !(assoc_L (++))].
    destruct (truthy _); by rewrite <- !(assoc_L (++)).
Qed.

(** The runs of the walk: a plain run is not empty, a run with a flag
    is the run of one of the positions, and every position has its run. *)
Lemma walkPositions_runs content (positions : list tagPosition) lastIndex :
  let runs := (walkPositions content positions lastIndex []).1 in
  Forall (λ run, (flags run = [] ∧ value run ≠ [])
                 ∨ ∃ pos, pos ∈ positions ∧ run = spanRun content pos) runs
  ∧ ∀ pos, pos ∈ positions → spanRun content pos ∈ runs.
Proof.
  revert lastIndex. induction positions as [|pos rest IH]; intros lastIndex; simpl.
  { split; [done | set_solver]. }
  rewrite walkPositions_app. simpl.
  destruct (IH (posEnd pos)) as [IH1 IH2].
  set (before := if (lastIndex <? posStart pos)%nat then _ else _).
  assert (Forall (λ run, flags run = [] ∧ value run ≠ []) before) as Hbefore.
  { subst before. destruct (lastIndex <? posStart pos)%nat; [|done].
    destruct (truthy _) eqn:E; [|done].
    apply truthy_true in E. by apply Forall_singleton. }
  split.
  - rewrite !Forall_app. split_and!.
    + eapply Forall_impl; [exact Hbefore|]. intros run Hrun. by left.
    + apply Forall_singleton. right. exists pos. split; [left | done].
    + eapply Forall_impl; [exact IH1|].
      intros run [Hrun|(p & Hp & ->)]; [by left|].
      right. exists p. split; [by right | done].
  - intros p [->|Hp]%elem_of_cons.
    + apply elem_of_app. left. apply elem_of_app. right. left.
    + apply elem_of_app. right. by apply IH2.
Qed.

(** The runs of the segmenter on a content with spans. *)
Lemma parseFormattedString_runs content :
  findTagPositions content ≠ [] →
  let runs := parseFormattedString content [] in
  Forall (λ run, (flags run = [] ∧ value run ≠ [])
                 ∨ ∃ pos, pos ∈ findTagPositions content ∧ run = spanRun content pos) runs
  ∧ ∀ pos, pos ∈ findTagPositions content → spanRun content pos ∈ runs.
Proof.
  intros Hne. unfold parseFormattedString.
  destruct (findTagPositions content) as [|p0 l0] eqn:Eps; [done|].
  rewrite <- Eps. clear Hne.
  pose proof (walkPositions_runs content (sortPositions (findTagPositions content)) 0)
    as [H1 H2].
  destruct (walkPositions content _ 0 []) as [runs lastIndex]. simpl in *.
  assert (Forall (λ run, flags run = [] ∧ value run ≠ [] ∨
            ∃ pos, pos ∈ findTagPositions content ∧ run = spanRun content pos) runs) as H1'.
  { eapply Forall_impl; [exact H1|]. intros run [?|(p & Hp & ->)]; [by left|].
    right. exists p. by rewrite <- (sortPositions_perm (findTagPositions content)). }
  assert (∀ pos, pos ∈ findTagPositions content → spanRun content pos ∈ runs) as H2'.
  { intros pos Hpos. apply H2. by rewrite (sortPositions_perm (findTagPositions content)). }
  destruct (lastIndex <? length content)%nat; [|done].
  destruct (truthy (substringFrom content lastIndex)) eqn:E; [|done].
  apply truthy_true in E. split.
  - apply Forall_app. split; [done|]. apply Forall_singleton. by left.
  - intros pos Hpos. apply elem_of_app. left. by apply H2'.
Qed.

(** In every case a run has no flag or the one flag of a table entry. *)
Lemma parseFormattedString_flags content :
  Forall atMostOneFlag (parseFormattedString content []).
Proof.
  destruct (findTagPositions content) as [|p0 l0] eqn:Eps.
  - unfold parseFormattedString. rewrite Eps. apply Forall_singleton. by left.
  - destruct (parseFormattedString_runs content) as [H _]; [by rewrite Eps|].
    eapply Forall_impl; [exact H|]. intros run [[Hf _]|(pos & Hpos & ->)]; [by left|].
    pose proof (findTagPositions_spans content) as Hs.
    rewrite Forall_forall in Hs. destruct (Hs _ Hpos) as (tag & Htag & Hattr & _).
    right. exists tag. simpl. by rewrite Hattr.
Qed.

End Segmenter.

(** ** Facts about the marker-stripped form *)

Section Strip.
Implicit Types (s a b m : jsstring).

Lemma markers_shape : forallb markerShape markers = true.
Proof. reflexivity. Qed.

(** A marker that is a prefix of another marker is that marker. *)
Lemma markers_prefix_free :
  forallb (λ m1, forallb (λ m2, implb (startsWith m1 m2) (JsString.eqb m1 m2)) markers)
    markers = true.
Proof. vm_compute. reflexivity. Qed.

#[local] Opaque markers.

Lemma startsWith_app_l pat s t : startsWith pat s = true → startsWith pat (s ++ t) = true.
Proof.
  intros [u ->]%startsWith_prefix. rewrite <- (assoc_L (++)). apply startsWith_app.
Qed.

(** Two prefixes of one string: one is a prefix of the other. *)
Lemma startsWith_comparable (p q t : jsstring) :
  startsWith p (q ++ t) = true → startsWith p q = true ∨ startsWith q p = true.
Proof.
  revert q. induction p as [|x p IH]; intros q; simpl; [by left|].
  destruct q as [|y q]; simpl; [by right|].
  rewrite andb_true_iff. intros [Hxy Hp].
  rewrite Hxy. apply N.eqb_eq in Hxy as ->. rewrite N.eqb_refl. simpl.
  by apply IH.
Qed.

Lemma markers_unique m1 m2 t :
  m1 ∈ markers → m2 ∈ markers → startsWith m1 (m2 ++ t) = true → m1 = m2.
Proof.
  intros H1%list_elem_of_In H2%list_elem_of_In Hs.
  pose proof markers_prefix_free as Hfree.
  rewrite forallb_forall in Hfree.
  destruct (startsWith_comparable _ _ _ Hs) as [H|H].
  - specialize (Hfree _ H1). rewrite forallb_forall in Hfree.
    specialize (Hfree _ H2). rewrite H in Hfree. simpl in Hfree.
    by apply bool_decide_eq_true in Hfree.
  - specialize (Hfree _ H2). rewrite forallb_forall in Hfree.
    specialize (Hfree _ H1). rewrite H in Hfree. simpl in Hfree.
    by apply bool_decide_eq_true in Hfree.
Qed.

Lemma marker_cons m :
  m ∈ markers → ∃ body, m = 60%N :: body ∧ forallb (λ x, negb (x =? 60)%N) body = true.
Proof.
  intros Hm%list_elem_of_In. pose proof markers_shape as Hshape.
  rewrite forallb_forall in Hshape. specialize (Hshape _ Hm).
  destruct m as [|c body]; [done|]. simpl in Hshape.
  apply andb_true_iff in Hshape as [->%N.eqb_eq Hbody]. eauto.
Qed.

(** A string without [x] that is a prefix of [a ++ x :: rest] is a
    prefix of [a]. *)
Lemma startsWith_before (p a rest : jsstring) (x : N) :
  forallb (λ y, negb (y =? x)%N) p = true →
  startsWith p (a ++ x :: rest) = true → startsWith p a = true.
Proof.
  revert a. induction p as [|q p IH]; intros a; simpl; [done|].
  rewrite andb_true_iff. intros [Hq Hp].
  destruct a as [|c a]; simpl.
  - rewrite andb_true_iff. intros [Hqx _]. by rewrite Hqx in Hq.
  - rewrite !andb_true_iff. intros [Hqc Hs]. split; [done|]. by apply IH.
Qed.

(** A marker does not begin in a non-empty [a] and end in a marker
    placed right after [a]. *)
Lemma marker_no_straddle m' m a b :
  m' ∈ markers → m ∈ markers → a ≠ [] →
  startsWith m' (a ++ m ++ b) = startsWith m' a.
Proof.
  intros (body' & -> & Hbody')%marker_cons (body & -> & _)%marker_cons Ha.
  destruct a as [|c a]; [done|].
  destruct (startsWith (60%N :: body') (c :: a)) eqn:E.
  - by apply (startsWith_app_l _ _ ((60%N :: body) ++ b)) in E.
  - destruct (startsWith (60%N :: body') ((c :: a) ++ (60%N :: body) ++ b)) eqn:E'; [|done].
    simpl in E, E'. apply andb_true_iff in E' as [Hc Hs].
    rewrite Hc in E. simpl in E.
    apply startsWith_before in Hs; [congruence | done].
Qed.

Lemma find_ext_in {A} (f g : A → bool) (l : list A) :
  (∀ x, x ∈ l → f x = g x) → find f l = find g l.
Proof.
  induction l as [|x l IH]; intros H; simpl; [done|].
  rewrite (H x) by left. destruct (g x); [done|]. apply IH.
  intros y Hy. apply H. by right.
Qed.

Lemma stripFrom_skip a b : stripFrom (length a) (a ++ b) = stripFrom 0 b.
Proof. induction a as [|c a IH]; simpl; done. Qed.

(** A marker at the front is left out. *)
Lemma stripMarkers_marker m b : m ∈ markers → stripMarkers (m ++ b) = stripMarkers b.
Proof.
  intros Hm. destruct (marker_cons m Hm) as (body & -> & _).
  unfold stripMarkers. simpl.
  destruct (find _ markers) as [m0|] eqn:E.
  - apply find_some in E as [Hm0%list_elem_of_In Hs].
    apply (markers_unique m0 (60%N :: body) b Hm0 Hm) in Hs as ->.
    simpl. rewrite Nat.sub_0_r. apply stripFrom_skip.
  - apply find_none with (x := 60%N :: body) in E; [|by apply list_elem_of_In].
    pose proof (startsWith_app (60%N :: body) b) as Hp. simpl in E, Hp. congruence.
Qed.

(** Stripping goes through a marker in the middle: the text in front
    of it and the text behind it are stripped apart. *)
Lemma stripFrom_app_marker m a b skip :
  m ∈ markers → skip ≤ length a →
  stripFrom skip (a ++ m ++ b) = stripFrom skip a ++ stripMarkers b.
Proof.
  intros Hm. revert skip. induction a as [|c a IH]; intros skip Hskip.
  - simpl in Hskip. replace skip with 0 by lia. simpl. by apply stripMarkers_marker.
  - destruct skip as [|skip]; simpl in *.
    + rewrite (find_ext_in _ (λ m0, startsWith m0 (c :: a))).
      * destruct (find _ markers) as [m0|] eqn:E.
        -- apply find_some in E as [_ Hlen%startsWith_length]. simpl in Hlen.
           apply IH. lia.
        -- simpl. f_equal. apply IH. lia.
      * intros m0 Hm0. by apply (marker_no_straddle m0 m (c :: a) b).
    + apply IH. lia.
Qed.

Lemma stripMarkers_app_marker m a b :
  m ∈ markers → stripMarkers (a ++ m ++ b) = stripMarkers a ++ stripMarkers b.
Proof. intros Hm. apply stripFrom_app_marker; [done | lia]. Qed.

#[local] Transparent markers.

Lemma tagStart_marker (tag : formattingTag) : tag ∈ formattingTags → tagStart tag ∈ markers.
Proof.
  intros H. unfold markers. apply list_elem_of_In, in_concat.
  exists [tagStart tag; tagEnd tag]. split; [|by left].
  apply list_elem_of_In. by apply (list_elem_of_fmap_2 (λ tag, [tagStart tag; tagEnd tag])).
Qed.

Lemma tagEnd_marker (tag : formattingTag) : tag ∈ formattingTags → tagEnd tag ∈ markers.
Proof.
  intros H. unfold markers. apply list_elem_of_In, in_concat.
  exists [tagStart tag; tagEnd tag]. split; [|right; by left].
  apply list_elem_of_In. by apply (list_elem_of_fmap_2 (λ tag, [tagStart tag; tagEnd tag])).
Qed.

Lemma occursAt_drop_eq pat s i :
  occursAt pat s i → drop i s = pat ++ drop (i + length pat) s.
Proof.
  intros (pre & post & -> & <-).
  rewrite drop_app_length. f_equal.
  rewrite (assoc_L (++)), <- length_app. by rewrite drop_app_length.
Qed.

Lemma drop_split s (i j : nat) :
  i ≤ j → j ≤ length s → drop i s = substring s i j ++ drop j s.
Proof.
  intros Hij Hj. rewrite substring_take_drop by done.
  rewrite <- (take_drop (j - i) (drop i s)) at 1. f_equal.
  rewrite drop_drop. f_equal. lia.
Qed.

(** The stripped values of the runs of a walk over positions that do
    not overlap, followed by the stripped rest of the content, are the
    stripped content from [lastIndex] on. *)
Lemma walkPositions_strip content (positions : list tagPosition) lastIndex :
  Forall (spanOf content) positions →
  nonOverlapping lastIndex positions = true →
  lastIndex ≤ length content →
  let w := walkPositions content positions lastIndex [] in
  w.2 ≤ length content
  ∧ concat (stripMarkers <$> (value <$> w.1)) ++ stripMarkers (drop w.2 content)
    = stripMarkers (drop lastIndex content).
Proof.
  intros Hspans. revert lastIndex.
  induction Hspans as [|pos rest Hpos _ IH]; intros lastIndex Hno Hlast; simpl.
  { done. }
  simpl in Hno. apply andb_true_iff in Hno as [Hle%Nat.leb_le Hno].
  destruct Hpos as (tag & Htag & _ & Hos & Hoe & Hcs & Hcse & Hpe).
  pose proof (occursAt_length _ _ _ Hos) as Hlen1.
  pose proof (occursAt_length _ _ _ Hoe) as Hlen2.
  destruct (IH (posEnd pos) Hno) as [IH1 IH2]; [lia|].
  rewrite walkPositions_app. simpl. split; [done|].
  rewrite (drop_split content lastIndex (posStart pos)) by lia.
  rewrite (occursAt_drop_eq _ _ _ Hos), <- Hcs.
  rewrite (drop_split content (contentStart pos) (contentEnd pos)) by lia.
  rewrite (occursAt_drop_eq _ _ _ Hoe), <- Hpe.
  rewrite (stripMarkers_app_marker (tagStart tag)) by by apply tagStart_marker.
  rewrite (stripMarkers_app_marker (tagEnd tag)) by by apply tagEnd_marker.
  rewrite <- IH2. rewrite !fmap_app, !concat_app. simpl.
  rewrite app_nil_r, <- !(assoc_L (++)). f_equal.
  destruct (lastIndex <? posStart pos)%nat eqn:E.
  - destruct (truthy (substring content lastIndex (posStart pos))) eqn:Et.
    + simpl. by rewrite app_nil_r.
    + destruct (substring content lastIndex (posStart pos)); done.
  - apply Nat.ltb_ge in E. replace (posStart pos) with lastIndex by lia.
    by rewrite substring_same.
Qed.

(** On a content whose spans do not overlap, the stripped values of the
    runs, put together in order, are the stripped content. *)
Lemma parseFormattedString_strip content :
  spansDisjoint content = true →
  concat (stripMarkers <$> (value <$> parseFormattedString content []))
  = stripMarkers content.
Proof.
  intros Hdis. unfold parseFormattedString.
  destruct (findTagPositions content) as [|p0 l0] eqn:Eps.
  { simpl. by rewrite app_nil_r. }
  rewrite <- Eps.
  destruct (walkPositions_strip content (sortPositions (findTagPositions content)) 0)
    as [Hlen Hstrip].
  - rewrite sortPositions_perm. apply findTagPositions_spans.
  - exact Hdis.
  - lia.
  - rewrite drop_0 in Hstrip.
    destruct (walkPositions content _ 0 []) as [runs lastIndex]. simpl in *.
    rewrite <- Hstrip. rewrite substringFrom_drop.
    destruct (lastIndex <? length content)%nat eqn:E.
    + destruct (truthy (drop lastIndex content)) eqn:Et.
      * rewrite !fmap_app, concat_app. simpl. by rewrite app_nil_r.
      * destruct (drop lastIndex content); [by rewrite app_nil_r | done].
    + apply Nat.ltb_ge in E. rewrite drop_ge by lia. by rewrite app_nil_r.
Qed.

End Strip.

(** * The claims about [htmlToJson] *)

Section ConverterFacts.
Variables paragraphs lists headings : jsstring → eff (list Node) unit.

(** Whatever the passes do, [htmlToJsonWith] completes normally with
    the root of what they left in [result.children]; a throw is
    reported on the console. *)
Lemma htmlToJsonWith_catches html con :
  htmlToJsonWith paragraphs lists headings html con
  = let '(c, assembled) := (paragraphs html;; lists html;; headings html) [] in
    (Normal (mkRoot assembled),
     match c with
     | Normal _ => con
     | Throw e => con ++ [ErrorParsingHTML e]
     end).
Proof.
  unfold htmlToJsonWith, htmlToJsonFrame, tryCatch, onResult. simpl.
  unfold mbind at 1. unfold eff_bind at 1. simpl.
  destruct ((paragraphs html;; lists html;; headings html) []) as [[[]|e] assembled];
    reflexivity.
Qed.
End ConverterFacts.

(** A pass that throws after the paragraphs were pushed: the paragraphs
    are returned and the error is reported. *)
Example htmlToJsonWith_partial :
  htmlToJsonWith processParagraphs (λ _, liftC (Throw (TypeError (lit "boom"))))
    processHeadings (lit "<p>a</p><h1>b</h1>") []
  = (Normal (mkRoot [Paragraph [mkText (lit "a") []]]),
     [ErrorParsingHTML (TypeError (lit "boom"))]).
Proof. vm_compute. reflexivity. Qed.

(** C1.  The children of the root are the paragraph nodes, then the
    unordered lists, then the ordered lists, then the headings of level 1,
    of level 2, ... of level 6; inside each group there is one node per
    match, and the matches are in document order.  In particular, when
    the input holds two paragraphs and, between them, one heading (and no
    other block), the children are the two paragraphs followed by the
    heading. *)
Theorem htmlToJson_pass_order (html : jsstring) (con : list logEntry) :
  (∃ ps us os (hs : nat → list Node),
      returned (htmlToJson html con)
      = Some (mkRoot (ps ++ us ++ os ++ concat (hs <$> seq 1 6)))
      ∧ builtFrom paragraphNode paragraphRegex html ps
      ∧ builtFrom (listNode unordered) ulRegex html us
      ∧ builtFrom (listNode ordered) olRegex html os
      ∧ ∀ level, builtFrom (headingNode level) (headingRegex level) html (hs level))
  ∧ (∀ m1 mh m2 level,
      execAll paragraphRegex html = [m1; m2] →
      execAll ulRegex html = [] →
      execAll olRegex html = [] →
      level ∈ seq 1 6 →
      execAll (headingRegex level) html = [mh] →
      (∀ l, l ∈ seq 1 6 → l ≠ level → execAll (headingRegex l) html = []) →
      index m1 < index mh → index mh < index m2 →
      ∃ k1 k2 kh,
        returned (htmlToJson html con)
        = Some (mkRoot [Paragraph k1; Paragraph k2; Heading level kh])).
Proof.
  rewrite htmlToJson_eq. simpl. split.
  - exists (paragraphNodes html), (listNodes unordered html), (listNodes ordered html),
      (λ level, headingNode level <$> contents (headingRegex level) html).
    split; [done|]. split_and!; try apply builtFrom_contents.
    intros level. apply builtFrom_contents.
  - intros m1 mh m2 level Hp Hu Ho Hlevel Hh Hothers _ _.
    pose proof (execAll_group (lit "p") html) as Gp.
    pose proof (execAll_group (lit "h" ++ [(48 + N.of_nat level)%N]) html) as Gh.
    fold paragraphRegex in Gp. fold (headingRegex level) in Gh.
    rewrite Hp in Gp. rewrite Hh in Gh.
    apply Forall_cons in Gp as [[c1 Hc1] [[c2 Hc2] _]%Forall_cons].
    apply Forall_cons in Gh as [[ch Hch] _].
    unfold rootChildrenOf, paragraphNodes, listNodes, headingNodes, contents.
    rewrite Hp, Hu, Ho. simpl omap. rewrite Hc1, Hc2.
    rewrite (concat_single _ _ level); [| apply NoDup_seq | done |].
    + rewrite Hh. simpl. rewrite Hch. simpl. eauto.
    + intros l Hl Hne. by rewrite Hothers.
Qed.

Lemma htmlToJson_pass_order_witness :
  let html := lit "<p>a</p><h1>b</h1><p>c</p>" in
  ∃ k1 k2 kh,
    returned (htmlToJson html []) = Some (mkRoot [Paragraph k1; Paragraph k2; Heading 1 kh]).
Proof.
  intros html.
  apply (proj2 (htmlToJson_pass_order html [])
           (MatchResult 0 8 (Some (lit "a"))) (MatchResult 8 18 (Some (lit "b")))
           (MatchResult 18 26 (Some (lit "c"))) 1).
  - vm_compute. reflexivity.
  - vm_compute. reflexivity.
  - vm_compute. reflexivity.
  - vm_compute. left.
  - vm_compute. reflexivity.
  - intros l Hl Hne. simpl in Hl.
    repeat (apply elem_of_cons in Hl as [->|Hl]; [try done; vm_compute; reflexivity|]).
    by apply elem_of_nil in Hl.
  - simpl. lia.
  - simpl. lia.
Defined.

(** C2.  [htmlToJson] never completes by a throw: on every input string
    it returns a root (and writes nothing to the console).  Moreover,
    whatever the three passes of its [try] block do, the error of a pass
    that throws is caught and the root of what [result.children] held at
    that moment is returned. *)
Theorem htmlToJson_never_raises :
  (∀ html con, ∃ root, htmlToJson html con = (Normal root, con))
  ∧ (∀ (paragraphs lists headings : jsstring → eff (list Node) unit) html con,
       let '(c, assembled) := (paragraphs html;; lists html;; headings html) [] in
       ∃ con', htmlToJsonWith paragraphs lists headings html con
               = (Normal (mkRoot assembled), con')).
Proof.
  split.
  - intros html con. rewrite htmlToJson_eq. eauto.
  - intros paragraphs lists headings html con.
    rewrite htmlToJsonWith_catches.
    destruct ((paragraphs html;; lists html;; headings html) []) as [c assembled].
    eauto.
Qed.



(** C6.  When the input contains no block of the tags [p], [ul], [ol],
    [h1], ..., [h6], the root that [htmlToJson] returns has no children. *)
Theorem no_block_empty_root (html : jsstring) (con : list logEntry) :
  (∀ tag, tag ∈ blockTags → ¬ containsBlock tag html) →
  returned (htmlToJson html con) = Some (mkRoot []).
Proof.
  intros Hno. rewrite htmlToJson_eq. simpl. do 2 f_equal.
  unfold rootChildrenOf, paragraphNodes, listNodes, headingNodes.
  unfold paragraphRegex, ulRegex, olRegex.
  rewrite !contents_no_block by (apply Hno; unfold blockTags; set_solver).
  rewrite !fmap_nil, !app_nil_l. apply concat_nil_all. intros level Hlevel.
  destruct (headingRegex_tag level Hlevel) as (tag & Htag & ->).
  by rewrite contents_no_block by by apply Hno.
Qed.

Lemma no_block_empty_root_witness :
  let html := lit "no <b>block</b>, only <li>an item</li> and <pre>text</p>" in
  (∀ tag, tag ∈ blockTags → ¬ containsBlock tag html)
  ∧ returned (htmlToJson html []) = Some (mkRoot []).
Proof.
  intros html.
  assert (∀ tag, tag ∈ blockTags → ¬ containsBlock tag html) as Hno.
  { intros tag Htag. apply exec_None_no_block. unfold blockTags in Htag.
    repeat (apply elem_of_cons in Htag as [->|Htag]; [vm_compute; reflexivity|]).
    by apply elem_of_nil in Htag. }
  split; [exact Hno|]. apply (no_block_empty_root html [] Hno).
Defined.

(** * The claims about the inline-run segmenter *)

(** C5.  A content in which no entry of the table has an opening marker
    followed by its closing marker gives exactly one run: the content
    itself, without flags. *)
Theorem plain_text_single_run (content : jsstring) :
  noMarkerPair content →
  parseFormattedString content [] = [mkText content []].
Proof.
  intros Hno. unfold parseFormattedString.
  by rewrite findTagPositions_noMarkerPair.
Qed.

Lemma plain_text_single_run_witness :
  let content := lit "2 < 3, <b>bold, never closed </i>" in
  noMarkerPairb content = true
  ∧ parseFormattedString content [] = [mkText content []].
Proof.
  intros content. split.
  - vm_compute. reflexivity.
  - apply (plain_text_single_run content).
    apply noMarkerPairb_sound. vm_compute. reflexivity.
Defined.

Lemma rootChildrenOf_flags (html : jsstring) :
  Forall (λ n, Forall atMostOneFlag (textRunsOfNode n)) (rootChildrenOf html).
Proof.
  unfold rootChildrenOf, paragraphNodes, listNodes, headingNodes.
  rewrite !Forall_app. split_and!.
  - apply Forall_fmap, Forall_true. intros c. simpl.
    destruct (isBlank c); [|apply parseFormattedString_flags].
    apply Forall_singleton. by left.
  - apply Forall_fmap, Forall_true. intros c. simpl.
    apply Forall_concat. rewrite <- list_fmap_compose.
    apply Forall_fmap, Forall_true. intros c'. apply parseFormattedString_flags.
  - apply Forall_fmap, Forall_true. intros c. simpl.
    apply Forall_concat. rewrite <- list_fmap_compose.
    apply Forall_fmap, Forall_true. intros c'. apply parseFormattedString_flags.
  - apply Forall_concat, Forall_fmap, Forall_true. intros level.
    apply Forall_fmap, Forall_true. intros c. apply parseFormattedString_flags.
Qed.

(** C9.  A span emits its run also when its inner text is empty: the
    input [<b></b>] gives one run with the value [""] and the flag
    [bold], and in general every span found has its run in the output.
    Plain text next to spans is emitted only when it is not empty. *)
Theorem empty_span_emitted_empty_text_dropped :
  parseFormattedString (lit "<b></b>") [] = [mkText [] [bold]]
  ∧ (∀ content pos,
       pos ∈ findTagPositions content →
       spanRun content pos ∈ parseFormattedString content []
       ∧ (contentStart pos = contentEnd pos →
          mkText [] [posAttr pos] ∈ parseFormattedString content []))
  ∧ (∀ content run,
       findTagPositions content ≠ [] →
       run ∈ parseFormattedString content [] →
       flags run = [] → value run ≠ []).
Proof.
  split_and!.
  - vm_compute. reflexivity.
  - intros content pos Hpos.
    assert (findTagPositions content ≠ []) as Hne.
    { intros E. rewrite E in Hpos. by apply elem_of_nil in Hpos. }
    destruct (parseFormattedString_runs content Hne) as [_ H].
    split; [by apply H|].
    intros Heq. specialize (H _ Hpos). unfold spanRun in H.
    by rewrite Heq, substring_same in H.
  - intros content run Hne Hrun Hflags.
    destruct (parseFormattedString_runs content Hne) as [H _].
    rewrite Forall_forall in H. destruct (H _ Hrun) as [[_ Hv]|(pos & _ & ->)]; [done|].
    discriminate.
Qed.

Lemma empty_span_emitted_empty_text_dropped_witness :
  let content := lit "a<i></i><b></b>" in
  mkText [] [italic] ∈ parseFormattedString content []
  ∧ value (mkText (lit "a") []) ≠ [].
Proof.
  intros content.
  destruct empty_span_emitted_empty_text_dropped as (_ & Hspan & Hplain). split.
  - apply (Hspan content (mkPos 1 8 4 4 italic)).
    + vm_compute. left.
    + reflexivity.
  - apply (Hplain content (mkText (lit "a") [])).
    + vm_compute. discriminate.
    + vm_compute. left.
    + reflexivity.
Defined.

(** C3, as stated, fails on nested tags: the inner text of the nested
    span is emitted twice, so the stripped concatenation of the values is
    [xx] and the stripped input is [x]. *)
Lemma nested_tags_duplicate_text :
  stripMarkers (concat (value <$> parseFormattedString (lit "<b><i>x</i></b>") []))
  ≠ stripMarkers (lit "<b><i>x</i></b>").
Proof. vm_compute. discriminate. Qed.

(** Leaving out the markers of a span can put a new marker together
    from the text on its two sides. *)
Example junction_forms_marker :
  let content := lit "<<b></b>i>" in
  spansDisjoint content = true
  ∧ value <$> parseFormattedString content [] = [lit "<"; []; lit "i>"]
  ∧ stripMarkers content = lit "<i>"
  ∧ stripMarkers (concat (value <$> parseFormattedString content [])) = [].
Proof. vm_compute. done. Qed.

(** C3, amended.  When the spans found in the content do not overlap,
    the values of the runs, each one stripped of markers and put together
    in order, are the stripped content: markers removed, plain and inner
    text kept once and in order.  The stripped form of the concatenated
    values is the stripped content as well, when no marker is put
    together across the boundary of two runs (stripping the
    concatenation is stripping run by run). *)
Theorem disjoint_spans_cover_content (content : jsstring) :
  spansDisjoint content = true →
  let values := value <$> parseFormattedString content [] in
  concat (stripMarkers <$> values) = stripMarkers content
  ∧ (stripMarkers (concat values) = concat (stripMarkers <$> values) →
     stripMarkers (concat values) = stripMarkers content).
Proof.
  intros Hdis values.
  pose proof (parseFormattedString_strip content Hdis) as H.
  split; [exact H|]. intros Hjoin. by rewrite Hjoin.
Qed.

Lemma disjoint_spans_cover_content_witness :
  let content := lit "Hello <em>big</em><b>wide</b> <s></s>world </u>!" in
  let values := value <$> parseFormattedString content [] in
  spansDisjoint content = true
  ∧ concat (stripMarkers <$> values) = stripMarkers content
  ∧ stripMarkers (concat values) = stripMarkers content.
Proof.
  intros content values.
  assert (spansDisjoint content = true) as Hdis by (vm_compute; reflexivity).
  destruct (disjoint_spans_cover_content content Hdis) as [Hruns Hjoin].
  split_and!; [exact Hdis | exact Hruns |].
  apply Hjoin. vm_compute. reflexivity.
Defined.

(** * The claims about the rows of [processCSV] *)

Section Rows.
Variable inherited : jsstring → bool.
Implicit Types (r : record) (htmlColumn : jsstring) (con : list logEntry).

Lemma convertCell_eq htmlColumn r con :
  convertCell inherited htmlColumn r r con
  = match contentToConvert (getProperty inherited r htmlColumn) with
    | Normal (Some s) =>
        (Normal (<[htmlColumn := VString (Json.stringify (mkRoot (rootChildrenOf s)))]> r),
         con)
    | Normal None => (Normal r, con)
    | Throw e => (Throw e, con)
    end.
Proof.
  unfold convertCell, mbind, eff_bind, liftC.
  destruct (contentToConvert _) as [[s|]|e]; try done.
  by rewrite htmlToJson_eq.
Qed.

Lemma processRecord_eq htmlColumn index r con :
  processRecord inherited htmlColumn index r con
  = (Normal (rowOutput inherited htmlColumn r),
     con ++ rowLog inherited htmlColumn index r).
Proof.
  unfold processRecord, rowOutput, rowLog.
  destruct (hasProperty inherited r htmlColumn).
  - unfold tryCatch. rewrite convertCell_eq.
    destruct (contentToConvert _) as [[s|]|e]; by rewrite ?app_nil_r.
  - destruct (index =? 0)%nat; by rewrite ?app_nil_r.
Qed.

Lemma mapRecords_eq htmlColumn (records : list record) index con :
  mapRecords inherited htmlColumn index records con
  = (Normal (rowOutput inherited htmlColumn <$> records),
     con ++ concat (imap (λ j, rowLog inherited htmlColumn (index + j)) records)).
Proof.
  revert index con. induction records as [|r rest IH]; intros index con; simpl.
  - by rewrite app_nil_r.
  - unfold mbind, eff_bind. rewrite processRecord_eq, IH. simpl.
    rewrite Nat.add_0_r, <- (assoc_L (++)). do 4 f_equal.
    apply imap_ext. intros j r' _. simpl. f_equal. lia.
Qed.

Lemma rowOutput_other htmlColumn r column :
  column ≠ htmlColumn → rowOutput inherited htmlColumn r !! column = r !! column.
Proof.
  intros Hne. unfold rowOutput.
  destruct (hasProperty inherited r htmlColumn); [|done].
  destruct (contentToConvert _) as [[s|]|e]; try done.
  by rewrite lookup_insert_ne.
Qed.

Lemma elem_of_concat {A} (x : A) (l : list A) (ls : list (list A)) :
  x ∈ l → l ∈ ls → x ∈ concat ls.
Proof.
  rewrite !list_elem_of_In. intros Hx Hl. apply in_concat. eauto.
Qed.

Lemma stringify_not_blank (root : Root) (s : jsstring) :
  forallb isSpace s = true → s ≠ Json.stringify root.
Proof. intros Hs ->. discriminate Hs. Qed.

End Rows.

(** C8.  [processCSV] returns one output row per input row.  A row whose
    conversion (the [try] block) throws [e] is returned as it was, cell
    of the HTML column included, and a warning with its row number
    [index + 1] and the message of [e] is on the console.  The other rows
    are processed as usual: a row whose cell is a string with something
    else than white space gets the serialized tree in that cell.  No row
    changes in a column other than the HTML column. *)
Theorem processCSV_row_error_keeps_cell (inherited : jsstring → bool)
    (htmlColumn : jsstring) (records : list record) (con : list logEntry) :
  ∃ out con',
    processRecords inherited htmlColumn records con = (Normal out, con')
    ∧ length out = length records
    ∧ (∀ i r e con0,
         records !! i = Some r →
         hasProperty inherited r htmlColumn = true →
         (convertCell inherited htmlColumn r r con0).1 = Throw e →
         out !! i = Some r ∧ WarnRow (i + 1) (message e) ∈ con')
    ∧ (∀ i r s,
         records !! i = Some r →
         r !! htmlColumn = Some (VString s) → trim s ≠ [] →
         ∃ root, returned (htmlToJson s []) = Some root
                 ∧ out !! i = Some (<[htmlColumn := VString (Json.stringify root)]> r))
    ∧ (∀ i r r' column,
         records !! i = Some r → out !! i = Some r' →
         column ≠ htmlColumn → r' !! column = r !! column).
Proof.
  unfold processRecords. rewrite mapRecords_eq. do 2 eexists. split; [done|].
  split_and!.
  - by rewrite length_fmap.
  - intros i r e con0 Hi Hhas Hthrow. rewrite convertCell_eq in Hthrow.
    rewrite list_lookup_fmap, Hi. simpl. split.
    + f_equal. unfold rowOutput. rewrite Hhas.
      by destruct (contentToConvert _) as [[s|]|e'].
    + apply elem_of_app. right.
      apply (elem_of_concat _ (rowLog inherited htmlColumn (0 + i) r)).
      * unfold rowLog. rewrite Hhas.
        destruct (contentToConvert _) as [[s|]|e']; try done.
        simpl in Hthrow. injection Hthrow as ->. left.
      * apply list_elem_of_lookup. exists i. by rewrite list_lookup_imap, Hi.
  - intros i r s Hi Hs Htrim. rewrite htmlToJson_eq. eexists. split; [done|].
    rewrite list_lookup_fmap, Hi. simpl. f_equal.
    unfold rowOutput, hasProperty, getProperty. rewrite Hs. simpl.
    try (rewrite bool_decide_true by eauto); simpl.
    assert (truthy s && truthy (trim s) = true) as ->; [|done].
    apply andb_true_iff. split; apply truthy_true; [|done].
    intros ->. by apply Htrim.
  - intros i r r' column Hi Ho Hne.
    rewrite list_lookup_fmap, Hi in Ho. injection Ho as <-.
    by apply rowOutput_other.
Qed.

Lemma processCSV_row_error_keeps_cell_witness :
  let html := lit "Body HTML" in
  let good : record := {[ html := VString (lit "<p>x</p>"); lit "Title" := VString (lit "a") ]} in
  let bad : record := {[ html := VNumber 5; lit "Title" := VString (lit "b") ]} in
  ∃ out con',
    processRecords objectPrototype html [bad; good] [] = (Normal out, con')
    ∧ out !! 0 = Some bad
    ∧ WarnRow 1 (lit "htmlContent.trim is not a function") ∈ con'
    ∧ out !! 1 = Some (<[html := VString (Json.stringify
                           (mkRoot [Paragraph [mkText (lit "x") []]]))]> good)
    ∧ ∀ r', out !! 1 = Some r' → r' !! lit "Title" = good !! lit "Title".
Proof.
  intros html good bad.
  destruct (processCSV_row_error_keeps_cell objectPrototype html [bad; good] [])
    as (out & con' & Hrun & _ & Hbad & Hgood & Hother).
  exists out, con'. split; [exact Hrun|].
  destruct (Hbad 0 bad (TypeError (lit "htmlContent.trim is not a function")) [])
    as [Hout Hwarn].
  - reflexivity.
  - vm_compute. reflexivity.
  - vm_compute. reflexivity.
  - destruct (Hgood 1 good (lit "<p>x</p>")) as (root & Hroot & Hout1).
    + reflexivity.
    + vm_compute. reflexivity.
    + vm_compute. discriminate.
    + split_and!; [exact Hout | exact Hwarn | |].
      * vm_compute in Hroot. injection Hroot as <-. exact Hout1.
      * intros r' Hr'. apply (Hother 1 good r' (lit "Title")).
        -- reflexivity.
        -- exact Hr'.
        -- vm_compute. discriminate.
Defined.

(** C10.  A row whose cell in the HTML column is a string that is empty
    or of white space only is returned as it was, with nothing written to
    the console; its cell is not the serialization of any tree. *)
Theorem processCSV_blank_cell_unchanged (inherited : jsstring → bool)
    (htmlColumn : jsstring) (index : nat) (r : record) (s : jsstring)
    (con : list logEntry) :
  r !! htmlColumn = Some (VString s) →
  forallb isSpace s = true →
  processRecord inherited htmlColumn index r con = (Normal r, con)
  ∧ (∀ root, VString s ≠ VString (Json.stringify root))
  ∧ (∀ records i,
       records !! i = Some r →
       ∃ out con', processRecords inherited htmlColumn records con = (Normal out, con')
                   ∧ out !! i = Some r).
Proof.
  intros Hs Hblank.
  assert (rowOutput inherited htmlColumn r = r) as Hout.
  { unfold rowOutput, hasProperty, getProperty. rewrite Hs. simpl.
    try (rewrite bool_decide_true by eauto); simpl.
    by rewrite (trim_spaces _ Hblank), andb_false_r. }
  assert (rowLog inherited htmlColumn index r = []) as Hlog.
  { unfold rowLog, hasProperty, getProperty. rewrite Hs. simpl.
    try (rewrite bool_decide_true by eauto); done. }
  split_and!.
  - by rewrite processRecord_eq, Hout, Hlog, app_nil_r.
  - intros root [= Heq]. by eapply stringify_not_blank.
  - intros records i Hi. unfold processRecords. rewrite mapRecords_eq.
    do 2 eexists. split; [done|]. rewrite list_lookup_fmap, Hi. simpl. by rewrite Hout.
Qed.

Lemma processCSV_blank_cell_unchanged_witness :
  let r : record := {[ lit "Body HTML" := VString (lit "   "); lit "Title" := VString (lit "a") ]} in
  processRecord objectPrototype (lit "Body HTML") 0 r [] = (Normal r, []).
Proof.
  intros r.
  apply (processCSV_blank_cell_unchanged objectPrototype (lit "Body HTML") 0 r (lit "   ") []).
  - reflexivity.
  - reflexivity.
Defined.

(** * Further properties of the block passes *)

Section BlockShape.
Implicit Types (tag html s : jsstring).

Lemma rmatch_seq {R} r1 r2 s i cap (k : @cont R) :
  rmatch (RSeq r1 r2) s i cap k = rmatch r1 s i cap (λ s' j cap', rmatch r2 s' j cap' k).
Proof. reflexivity. Qed.

Lemma lang_take_drop r (s : jsstring) n w : lang r (take n s) → take n s = w → s = w ++ drop n s.
Proof. intros _ <-. by rewrite take_drop. Qed.

(** A match of a block regular expression, read off the input: the
    opening tag with its attributes, the content up to the first closing
    tag, the closing tag. *)
Lemma rmatch_block {R} tag s i (k : @cont R) x :
  (∀ s' j cap, is_Some (k s' j cap)) →
  rmatch (blockRegex tag) s i None k = Some x →
  ∃ attrs c rest,
    validAttrs attrs
    ∧ s = blockText tag attrs c ++ rest
    ∧ (∀ j, j < length c → startsWith (closeTag tag) (drop j (c ++ closeTag tag ++ rest)) = false)
    ∧ k rest (i + length (blockText tag attrs c))
        (Some (i + length (lit "<" ++ tag) + length attrs + 1,
               i + length (lit "<" ++ tag) + length attrs + 1 + length c)) = Some x.
Proof.
  intros Hk. unfold blockRegex. rewrite rmatch_seq.
  intros (n1 & cap1 & H & _ & Hn1 & Hl1 & _)%rmatch_sound. cbn [lang] in Hl1.
  rewrite rmatch_seq in H.
  apply rmatch_sound in H as (n2 & cap2 & H & _ & Hn2 & Hl2 & _).
  rewrite rmatch_seq in H.
  apply rmatch_sound in H as (n3 & cap3 & H & _ & Hn3 & Hl3 & _). cbn [lang] in Hl3.
  rewrite rmatch_seq in H. cbn [rmatch] in H.
  apply starLazy_sound in H as (n4 & H & Hn4 & _ & Hmin).
  set (s1 := drop n1 s) in *. set (s2 := drop n2 s1) in *. set (s3 := drop n3 s2) in *.
  fold (closeTag tag) in H, Hmin.
  destruct (startsWith (closeTag tag) (drop n4 s3)) eqn:Hclose; [|done].
  apply startsWith_prefix in Hclose as [rest Hrest].
  assert (s = (lit "<" ++ tag) ++ s1) as Hs by (rewrite <- Hl1; symmetry; apply take_drop).
  assert (s2 = lit ">" ++ s3) as Hs2 by (rewrite <- Hl3; symmetry; apply take_drop).
  assert (s1 = take n2 s1 ++ s2) as Hs1 by (symmetry; apply take_drop).
  assert (s3 = take n4 s3 ++ closeTag tag ++ rest) as Hs3
    by (rewrite <- Hrest; symmetry; apply take_drop).
  assert (n1 = length (lit "<" ++ tag)) as Hlen1.
  { rewrite <- Hl1, length_take. lia. }
  assert (n3 = 1) as Hlen3.
  { apply (f_equal length) in Hl3. rewrite length_take in Hl3. simpl in Hl3.
    subst s2. lia. }
  assert (length (take n2 s1) = n2) as Hlen2 by (rewrite length_take; subst s1; lia).
  assert (length (take n4 s3) = n4) as Hlen4 by (rewrite length_take; subst s3; lia).
  exists (take n2 s1), (take n4 s3), rest. split_and!.
  - destruct Hl2 as [->|(a & b & -> & (y & -> & Hy) & Hb)]; [by left|].
    right. by exists y, b.
  - assert (s = (lit "<" ++ tag) ++ take n2 s1 ++ lit ">" ++ take n4 s3
                 ++ closeTag tag ++ rest) as Hall.
    { etrans; [exact Hs|]. f_equal. etrans; [exact Hs1|]. f_equal.
      etrans; [exact Hs2|]. f_equal. exact Hs3. }
    etrans; [exact Hall|]. unfold blockText, closeTag.
    by rewrite <- !(assoc_L (++)).
  - intros j Hj. rewrite Hlen4 in Hj. specialize (Hmin j Hj).
    rewrite <- Hs3. cbn [rmatch] in Hmin.
    destruct (startsWith (closeTag tag) (drop j s3)); [|done].
    destruct (Hk (drop (length (closeTag tag)) (drop j s3))
                (i + n1 + n2 + n3 + j + length (closeTag tag))
                (Some (i + n1 + n2 + n3, i + n1 + n2 + n3 + j))) as [y Hy].
    congruence.
  - rewrite Hrest in H. rewrite drop_app_length in H.
    rewrite Hlen2, Hlen4, <- Hlen1. subst n3.
    replace (i + length (blockText tag (take n2 s1) (take n4 s3)))
      with (i + n1 + n2 + 1 + n4 + length (closeTag tag)); [exact H|].
    unfold blockText, closeTag. rewrite Hlen1, !length_app, Hlen2, Hlen4. simpl. lia.
Qed.

Lemma execFrom_inv r str s i m :
  execFrom r str s i = Some m →
  ∃ d, d ≤ length s
    ∧ rmatch r (drop d s) (i + d) None
        (λ _ j cap, Some (MatchResult (i + d) j ((λ '(a, b), substring str a b) <$> cap)))
      = Some m
    ∧ ∀ d', d' < d →
        rmatch r (drop d' s) (i + d') None
          (λ _ j cap, Some (MatchResult (i + d') j ((λ '(a, b), substring str a b) <$> cap)))
        = None.
Proof.
  revert i. induction s as [|a s IH]; intros i; simpl.
  - destruct (rmatch r [] i None _) eqn:E; [|done].
    intros [= ->]. exists 0. rewrite Nat.add_0_r. split_and!; [lia | done | lia].
  - destruct (rmatch r (a :: s) i None _) eqn:E.
    + intros [= ->]. exists 0. rewrite Nat.add_0_r. split_and!; [lia | done | lia].
    + intros (d & Hd & Hm & Hmin)%IH. exists (S d). simpl.
      replace (i + S d) with (S i + d) by lia. split_and!; [lia | done |].
      intros [|d'] Hd'; simpl.
      * by rewrite Nat.add_0_r.
      * replace (i + S d') with (S i + d') by lia. apply Hmin. lia.
Qed.

End BlockShape.

Lemma exec_group_infixOf r (str : jsstring) lastIndex m c :
  exec r str lastIndex = Some m → group1 m = Some c → infixOf c str.
Proof.
  unfold exec. destruct (length str <? lastIndex)%nat; [done|].
  intros (d & _ & Hm & _)%execFrom_inv Hc.
  apply rmatch_sound in Hm as (n & cap' & Hm & _).
  injection Hm as <-. simpl in Hc.
  destruct cap' as [[a b]|]; [|done]. injection Hc as <-.
  unfold infixOf, substring.
  set (i := (a `min` length str) `min` (b `min` length str)).
  set (k := (a `min` length str) `max` (b `min` length str) - i).
  exists (take i str), (drop k (drop i str)). by rewrite take_drop, take_drop.
Qed.

(** X1.  What a match of a block pass is: at its index the input reads
    opening tag (with valid attributes), content, closing tag; element 1
    of the match is that content; the content holds no closing tag of the
    block (it ends at the first one); and no block text begins between
    [lastIndex] and the index of the match (the match is the leftmost). *)
Theorem exec_block_shape (tag html : jsstring) (lastIndex : nat) (m : matchResult) :
  exec (blockRegex tag) html lastIndex = Some m →
  ∃ attrs c,
    validAttrs attrs
    ∧ group1 m = Some c
    ∧ lastIndex ≤ index m
    ∧ html = take (index m) html ++ blockText tag attrs c ++ drop (matchEnd m) html
    ∧ matchEnd m = index m + length (blockText tag attrs c)
    ∧ (∀ j, ¬ occursAt (closeTag tag) c j)
    ∧ (∀ i, lastIndex ≤ i → i < index m →
         ¬ ∃ attrs' c' post, validAttrs attrs' ∧ drop i html = blockText tag attrs' c' ++ post).
Proof.
  unfold exec. destruct (length html <? lastIndex)%nat eqn:E; [done|].
  apply Nat.ltb_ge in E.
  intros (d & Hd & Hm & Hmin)%execFrom_inv. rewrite length_drop in Hd.
  apply rmatch_block in Hm as (attrs & c & rest & Hattrs & Hs & Hfirst & Hm);
    [|by eexists].
  apply (inj Some) in Hm. subst m. rewrite drop_drop in Hs.
  exists attrs, c. cbn [index matchEnd group1 fmap option_fmap option_map].
  assert (drop (lastIndex + d + length (blockText tag attrs c)) html = rest) as Hrest.
  { rewrite <- drop_drop, Hs. apply drop_app_length. }
  assert (lastIndex + d + length (blockText tag attrs c) ≤ length html) as Hlen.
  { apply (f_equal length) in Hs. rewrite length_drop, length_app in Hs. lia. }
  split_and!; try done; try lia.
  - f_equal.
    set (a := lastIndex + d + length (lit "<" ++ tag) + length attrs + 1).
    assert (drop a html = c ++ closeTag tag ++ rest) as Ha.
    { replace a with (lastIndex + d + (length (lit "<" ++ tag) + length attrs + 1))
        by (subst a; lia).
      rewrite <- drop_drop, Hs. unfold blockText. fold (closeTag tag).
      replace (((lit "<" ++ tag) ++ attrs ++ lit ">" ++ c ++ closeTag tag) ++ rest)
        with (((lit "<" ++ tag) ++ attrs ++ lit ">") ++ c ++ closeTag tag ++ rest)
        by (by rewrite <- !(assoc_L (++))).
      apply drop_app_length'. rewrite !length_app. simpl. lia. }
    assert (a + length c ≤ length html) as Hac.
    { apply (f_equal length) in Ha. unfold closeTag in Ha.
      rewrite length_drop, !length_app in Ha. simpl in Ha. lia. }
    rewrite substring_take_drop by lia.
    replace (a + length c - a) with (length c) by lia.
    by rewrite Ha, take_app_length.
  - rewrite Hrest, <- Hs. by rewrite take_drop.
  - intros j Hocc. pose proof (occursAt_length _ _ _ Hocc) as Hj.
    destruct Hocc as (pre & post & Hc & Hpre).
    assert (j < length c) as Hjc by (unfold closeTag in Hj; rewrite !length_app in Hj; simpl in Hj; lia).
    specialize (Hfirst j Hjc).
    rewrite Hc, <- Hpre, <- !(assoc_L (++)), drop_app_length in Hfirst.
    by rewrite startsWith_app in Hfirst.
  - intros i Hi1 Hi2 (attrs' & c' & post & Hattrs' & Hdrop).
    specialize (Hmin (i - lastIndex)). rewrite drop_drop in Hmin.
    replace (lastIndex + (i - lastIndex)) with i in Hmin by lia.
    rewrite Hdrop in Hmin.
    destruct (rmatch_complete (blockRegex tag) (blockText tag attrs' c') post i None
                (λ _ j cap, Some (MatchResult i j ((λ '(a, b), substring html a b) <$> cap))))
      as [y Hy]; [by apply blockText_lang | by eexists |].
    rewrite Hmin in Hy; [done | lia].
Qed.

Lemma exec_block_shape_witness :
  let html := lit "a<p>b<p class=x>one</p>two</p>" in
  exec (blockRegex (lit "p")) html 2 = Some (MatchResult 5 23 (Some (lit "one")))
  ∧ ∃ attrs c,
      validAttrs attrs ∧ Some (lit "one") = Some c ∧ 2 ≤ 5
      ∧ html = take 5 html ++ blockText (lit "p") attrs c ++ drop 23 html
      ∧ (∀ j, ¬ occursAt (closeTag (lit "p")) c j).
Proof.
  intros html.
  assert (exec (blockRegex (lit "p")) html 2 = Some (MatchResult 5 23 (Some (lit "one")))) as Hm
    by (vm_compute; reflexivity).
  split; [exact Hm|].
  destruct (exec_block_shape (lit "p") html 2 _ Hm)
    as (attrs & c & H1 & H2 & H3 & H4 & _ & H6 & _).
  exists attrs, c. split_and!; assumption.
Defined.

Lemma contents_nil_exec (tag html : jsstring) :
  contents (blockRegex tag) html = [] → exec (blockRegex tag) html 0 = None.
Proof.
  unfold contents, execAll. cbn [execLoop].
  destruct (exec (blockRegex tag) html 0) as [m|] eqn:E; [|done].
  apply exec_Some in E as (_ & _ & _ & _ & Hg).
  destruct Hg as [c Hc]; [done|]. cbn [omap list_omap]. by rewrite Hc.
Qed.

Lemma rootChildrenOf_no_block (html : jsstring) :
  (∀ tag, tag ∈ blockTags → ¬ containsBlock tag html) → rootChildrenOf html = [].
Proof.
  intros Hno.
  unfold rootChildrenOf, paragraphNodes, listNodes, headingNodes.
  unfold paragraphRegex, ulRegex, olRegex.
  rewrite !contents_no_block by (apply Hno; unfold blockTags; set_solver).
  rewrite !fmap_nil, !app_nil_l. apply concat_nil_all. intros level Hlevel.
  destruct (headingRegex_tag level Hlevel) as (tag & Htag & ->).
  by rewrite contents_no_block by by apply Hno.
Qed.

(** X2.  [htmlToJson] returns a root without children exactly when the
    input contains no block of the tags it looks for. *)
Theorem empty_root_iff_no_block (html : jsstring) (con : list logEntry) :
  returned (htmlToJson html con) = Some (mkRoot [])
  ↔ ∀ tag, tag ∈ blockTags → ¬ containsBlock tag html.
Proof.
  rewrite htmlToJson_eq. simpl. split;
    [|intros Hno; by rewrite rootChildrenOf_no_block].
  intros [= Hnil] tag Htag.
  unfold rootChildrenOf, paragraphNodes, listNodes, headingNodes in Hnil.
  cbn [seq fmap list_fmap concat] in Hnil.
  repeat (apply app_eq_nil in Hnil as [?%fmap_nil_inv%contents_nil_exec Hnil]).
  unfold blockTags in Htag.
  repeat (apply elem_of_cons in Htag as [->|Htag]; [by apply exec_None_no_block|]).
  by apply elem_of_nil in Htag.
Qed.

(** * Further properties of the tree and of the segmenter *)

Section TreeFacts.
Implicit Types (content html s c : jsstring).

Lemma execLoop_elem r str fuel lastIndex m :
  m ∈ execLoop fuel r str lastIndex → ∃ lastIndex', exec r str lastIndex' = Some m.
Proof.
  revert lastIndex. induction fuel as [|fuel IH]; intros lastIndex; simpl.
  - by intros ?%elem_of_nil.
  - destruct (exec r str lastIndex) as [m0|] eqn:E; [|by intros ?%elem_of_nil].
    intros [->|Hm]%elem_of_cons; eauto.
Qed.

Lemma infixOf_refl s : infixOf s s.
Proof. exists [], []. by rewrite app_nil_r. Qed.

Lemma infixOf_trans c s html : infixOf c s → infixOf s html → infixOf c html.
Proof.
  intros (p1 & q1 & ->) (p2 & q2 & ->). exists (p2 ++ p1), (q1 ++ q2).
  by rewrite <- !(assoc_L (++)).
Qed.

Lemma substring_infixOf s a b : infixOf (substring s a b) s.
Proof.
  unfold substring.
  set (i := (a `min` length s) `min` (b `min` length s)).
  set (k := (a `min` length s) `max` (b `min` length s) - i).
  exists (take i s), (drop k (drop i s)). by rewrite take_drop, take_drop.
Qed.

Lemma contents_infixOf tag html :
  Forall (λ c, infixOf c html) (contents (blockRegex tag) html).
Proof.
  apply Forall_forall. intros c Hc. unfold contents in Hc.
  apply list_elem_of_omap in Hc as (m & Hm & Hg).
  apply execLoop_elem in Hm as (lastIndex & Hexec).
  by eapply exec_group_infixOf.
Qed.

(** The array that [walkPositions] started with stays in front, and
    every value pushed is cut out of the content by [substring]. *)
Lemma walkPositions_values content (positions : list tagPosition) lastIndex :
  Forall (λ run, infixOf (value run) content)
    (walkPositions content positions lastIndex []).1.
Proof.
  revert lastIndex. induction positions as [|pos rest IH]; intros lastIndex; simpl; [done|].
  rewrite walkPositions_app. simpl. rewrite !Forall_app. split_and!.
  - destruct (lastIndex <? posStart pos)%nat; [|done].
    destruct (truthy _); [|done]. apply Forall_singleton, substring_infixOf.
  - apply Forall_singleton, substring_infixOf.
  - apply IH.
Qed.

Lemma parseFormattedString_values content :
  Forall (λ run, infixOf (value run) content) (parseFormattedString content []).
Proof.
  unfold parseFormattedString.
  destruct (findTagPositions content) as [|p0 l0] eqn:Eps.
  { apply Forall_singleton, infixOf_refl. }
  pose proof (walkPositions_values content (sortPositions (p0 :: l0)) 0) as Hw.
  destruct (walkPositions content _ 0 []) as [runs lastIndex]. simpl in Hw.
  destruct (lastIndex <? length content)%nat; [|done].
  destruct (truthy _); [|done].
  apply Forall_app. split; [done|]. apply Forall_singleton, substring_infixOf.
Qed.

Lemma parseFormattedString_nonempty content : parseFormattedString content [] ≠ [].
Proof.
  destruct (findTagPositions content) as [|p0 l0] eqn:Eps.
  - unfold parseFormattedString. by rewrite Eps.
  - destruct (parseFormattedString_runs content) as [_ H]; [by rewrite Eps|].
    specialize (H p0). rewrite Eps in H.
    intros Hnil. rewrite Hnil in H. eapply elem_of_nil, H. left.
Qed.

End TreeFacts.

(** X3.  Every node of the tree is well formed: each paragraph, each
    heading and each list item holds at least one text node, and heading
    levels are between 1 and 6.  (A list may hold no item.) *)
Theorem tree_well_formed (html : jsstring) (con : list logEntry) :
  ∃ root, returned (htmlToJson html con) = Some root
          ∧ Forall wellFormedNode (rootChildren root).
Proof.
  rewrite htmlToJson_eq. eexists. split; [done|]. simpl.
  unfold rootChildrenOf, paragraphNodes, listNodes, headingNodes.
  rewrite !Forall_app. split_and!.
  - apply Forall_fmap, Forall_true. intros c. simpl.
    destruct (isBlank c); [done | apply parseFormattedString_nonempty].
  - apply Forall_fmap, Forall_true. intros c. simpl.
    apply Forall_fmap, Forall_true. intros c'. apply parseFormattedString_nonempty.
  - apply Forall_fmap, Forall_true. intros c. simpl.
    apply Forall_fmap, Forall_true. intros c'. apply parseFormattedString_nonempty.
  - apply Forall_concat, Forall_fmap, Forall_forall. intros level Hlevel.
    apply elem_of_seq in Hlevel.
    apply Forall_fmap, Forall_true. intros c. simpl.
    split_and!; [lia | lia | apply parseFormattedString_nonempty].
Qed.

(** X4.  The value of every text node of the tree is a contiguous part
    of the input, copied unchanged, or it is the single space that stands
    for a blank paragraph. *)
Theorem text_values_from_input (html : jsstring) (con : list logEntry) :
  ∃ root, returned (htmlToJson html con) = Some root
          ∧ Forall (λ run, value run = lit " " ∨ infixOf (value run) html) (textRuns root).
Proof.
  rewrite htmlToJson_eq. eexists. split; [done|].
  assert (∀ c, infixOf c html →
            Forall (λ run, value run = lit " " ∨ infixOf (value run) html)
              (parseFormattedString c [])) as Hparse.
  { intros c Hc. eapply Forall_impl; [apply parseFormattedString_values|].
    intros run Hrun. right. exact (infixOf_trans _ _ _ Hrun Hc). }
  assert (∀ lt c, infixOf c html →
            Forall (λ run, value run = lit " " ∨ infixOf (value run) html)
              (textRunsOfNode (listNode lt c))) as Hlist.
  { intros lt c Hc. simpl. apply Forall_concat. rewrite <- list_fmap_compose.
    apply Forall_fmap. eapply Forall_impl; [apply contents_infixOf|].
    intros c' Hc'. simpl. apply Hparse. exact (infixOf_trans _ _ _ Hc' Hc). }
  unfold textRuns. simpl. apply Forall_concat, Forall_fmap.
  unfold rootChildrenOf, paragraphNodes, listNodes, headingNodes.
  rewrite !Forall_app. split_and!.
  - apply Forall_fmap. eapply Forall_impl; [apply contents_infixOf|].
    intros c Hc. simpl. destruct (isBlank c); [|by apply Hparse].
    apply Forall_singleton. by left.
  - apply Forall_fmap. eapply Forall_impl; [apply contents_infixOf|].
    intros c Hc. by apply Hlist.
  - apply Forall_fmap. eapply Forall_impl; [apply contents_infixOf|].
    intros c Hc. by apply Hlist.
  - apply Forall_concat, Forall_fmap, Forall_true. intros level.
    apply Forall_fmap. eapply Forall_impl; [apply contents_infixOf|].
    intros c Hc. simpl. by apply Hparse.
Qed.


(** * Further properties of the rows and of [htmlToJsonString] *)

(** X6.  When no record has the HTML column, [processCSV] returns every
    record as it was and writes one warning to the console, for the
    first record; for no record at all it writes nothing. *)
Theorem processCSV_missing_column (inherited : jsstring → bool)
    (htmlColumn : jsstring) (records : list record) (con : list logEntry) :
  Forall (λ r, hasProperty inherited r htmlColumn = false) records →
  processRecords inherited htmlColumn records con
  = (Normal records,
     con ++ match records with
            | [] => []
            | _ :: _ => [WarnColumnNotFound htmlColumn]
            end).
Proof.
  intros Hmissing. unfold processRecords. rewrite mapRecords_eq.
  assert (rowOutput inherited htmlColumn <$> records = records) as ->.
  { induction Hmissing as [|r rest Hr _ IH]; [done|].
    rewrite fmap_cons, IH. f_equal. unfold rowOutput. by rewrite Hr. }
  do 2 f_equal.
  assert (∀ (rows : list record) index,
            Forall (λ r, hasProperty inherited r htmlColumn = false) rows →
            concat (imap (λ j, rowLog inherited htmlColumn (S index + j)) rows) = []) as Hrest.
  { clear. intros rows index Hrows. revert index.
    induction Hrows as [|r rest Hr _ IH]; intros index; [done|].
    simpl. unfold rowLog at 1. rewrite Hr. simpl.
    rewrite <- (IH (S index)). f_equal. apply imap_ext. intros j r' _. simpl.
    f_equal. lia. }
  destruct Hmissing as [|r rest Hr Hrest']; [done|].
  simpl. unfold rowLog at 1. rewrite Hr. simpl. f_equal.
  rewrite <- (Hrest rest 0 Hrest'). f_equal.
Qed.

Lemma processCSV_missing_column_witness :
  let r1 : record := {[ lit "Title" := VString (lit "a") ]} in
  let r2 : record := {[ lit "Title" := VString (lit "<p>b</p>") ]} in
  processRecords objectPrototype (lit "Body HTML") [r1; r2] []
  = (Normal [r1; r2], [WarnColumnNotFound (lit "Body HTML")]).
Proof.
  intros r1 r2.
  apply (processCSV_missing_column objectPrototype (lit "Body HTML") [r1; r2] []).
  repeat constructor.
Defined.

Lemma rowOutput_dom (inherited : jsstring → bool) (htmlColumn : jsstring) (r : record) :
  dom (rowOutput inherited htmlColumn r) = dom r.
Proof.
  unfold rowOutput. destruct (hasProperty inherited r htmlColumn); [|done].
  unfold getProperty.
  destruct (r !! htmlColumn) as [v|] eqn:Hv.
  - destruct (contentToConvert v) as [[s|]|e]; try done.
    apply dom_insert_lookup_L. eauto.
  - destruct (inherited htmlColumn); done.
Qed.

(** X7.  Every output row of [processCSV] has exactly the columns of its
    input row: the conversion replaces a cell, it never adds or removes a
    column (also not for a column name that a record only inherits). *)
Theorem processCSV_keeps_columns (inherited : jsstring → bool)
    (htmlColumn : jsstring) (records : list record) (con : list logEntry) :
  ∃ out con',
    processRecords inherited htmlColumn records con = (Normal out, con')
    ∧ Forall2 (λ r r', dom r' = dom r) records out.
Proof.
  unfold processRecords. rewrite mapRecords_eq. do 2 eexists. split; [done|].
  apply Forall2_fmap_r, Forall2_same_length_lookup_2; [done|].
  intros i r r' Hr Hr'. assert (r = r') as -> by congruence. apply rowOutput_dom.
Qed.

(** X8.  For an input without blocks [htmlToJsonString] returns the
    text of the empty root, and it never throws. *)
Theorem htmlToJsonString_no_block (html : jsstring) (con : list logEntry) :
  (∀ tag, tag ∈ blockTags → ¬ containsBlock tag html) →
  htmlToJsonString html con = (Normal (dq "{'type':'root','children':[]}"), con).
Proof.
  intros Hno. unfold htmlToJsonString, mbind, eff_bind.
  rewrite htmlToJson_eq, (rootChildrenOf_no_block html Hno).
  vm_compute. reflexivity.
Qed.

Lemma htmlToJsonString_no_block_witness :
  htmlToJsonString (lit "plain <b>text</b>") []
  = (Normal (dq "{'type':'root','children':[]}"), []).
Proof.
  apply htmlToJsonString_no_block. intros tag Htag.
  apply exec_None_no_block. unfold blockTags in Htag.
  repeat (apply elem_of_cons in Htag as [->|Htag]; [vm_compute; reflexivity|]).
  by apply elem_of_nil in Htag.
Defined.

(** X18.  The rows are converted independently of each other: the
    output rows of two lists of records put together are the output rows
    of the first list followed by those of the second. *)
Theorem processCSV_rows_independent (inherited : jsstring → bool)
    (htmlColumn : jsstring) (records1 records2 : list record) (con : list logEntry) :
  ∃ out1 out2 con1 con2 con12,
    processRecords inherited htmlColumn records1 con = (Normal out1, con1)
    ∧ processRecords inherited htmlColumn records2 con = (Normal out2, con2)
    ∧ processRecords inherited htmlColumn (records1 ++ records2) con
      = (Normal (out1 ++ out2), con12).
Proof.
  unfold processRecords. rewrite !mapRecords_eq. do 5 eexists.
  split_and!; [reflexivity | reflexivity |]. by rewrite fmap_app.
Qed.

(** * Properties of [processCSV] and [batchProcessCSV] on files *)

Lemma eff_bind_run {S A B} (c : eff S A) (f : A → eff S B) (x : S) :
  (c ≫= f) x
  = match c x with
    | (Normal a, x') => f a x'
    | (Throw e, x') => (Throw e, x')
    end.
Proof. reflexivity. Qed.

Section FileFacts.
Context {F O : Type}.
Variable inherited : jsstring → bool.
Variable readFileSync : jsstring → F → completion jsstring.
Variable writeFileSync : jsstring → jsstring → F → completion unit * F.
Variable parse : jsstring → O → completion (list record).
Variable stringify : list record → completion jsstring.
Variable globSync : jsstring → F → list jsstring.
Variable ensureDir : jsstring → F → completion unit * F.
Variable basename : jsstring → jsstring.
Variable join : jsstring → jsstring → jsstring.

#[local] Abbreviation processCSV' := (processCSV inherited readFileSync writeFileSync parse stringify).
#[local] Abbreviation batchFile' :=
  (batchFile inherited readFileSync writeFileSync parse stringify basename join).
#[local] Abbreviation batchLoop' :=
  (batchLoop inherited readFileSync writeFileSync parse stringify basename join).
#[local] Abbreviation batchProcessCSV' :=
  (batchProcessCSV inherited readFileSync writeFileSync parse stringify globSync ensureDir
     basename join).


(** X9.  When the input file cannot be read, or its content cannot be
    parsed, [processCSV] throws that very error, after writing its
    message to the console as its only line, and the file system is as
    it was: nothing is written. *)
Theorem processCSV_bad_input (inputFilePath outputFilePath htmlColumn : jsstring)
    (options : O) (w : @world F) (e : jsError) :
  readFileSync inputFilePath (files w) = Throw e
  ∨ (∃ content, readFileSync inputFilePath (files w) = Normal content
                ∧ parse content options = Throw e) →
  processCSV' inputFilePath outputFilePath htmlColumn options w
  = (Throw e, mkWorld (files w) (lines w ++ [LogCsvError (message e)])).
Proof.
  intros Hbad. unfold processCSV, processCSVBody, tryCatch, reading, mbind, eff_bind, liftC.
  destruct Hbad as [Hread|(content & Hread & Hparse)].
  - rewrite Hread. reflexivity.
  - rewrite Hread, Hparse. reflexivity.
Qed.

(** X10.  When reading, parsing, serializing and writing succeed,
    [processCSV] writes to the output file the serialization of the rows
    converted one by one, and returns the number of records parsed,
    whether converted or not, with the path of the output file. *)
Theorem processCSV_success (inputFilePath outputFilePath htmlColumn : jsstring)
    (options : O) (w : @world F) (content text : jsstring) (records : list record)
    (fs' : F) :
  readFileSync inputFilePath (files w) = Normal content →
  parse content options = Normal records →
  stringify (rowOutput inherited htmlColumn <$> records) = Normal text →
  writeFileSync outputFilePath text (files w) = (Normal (), fs') →
  ∃ w', processCSV' inputFilePath outputFilePath htmlColumn options w
        = (Normal (mkCsvResult (length records) outputFilePath), w')
        ∧ files w' = fs'
        ∧ last (lines w') = Some (LogWritten outputFilePath).
Proof.
  intros Hread Hparse Htext Hwrite.
  unfold processCSV, processCSVBody, tryCatch, reading, writing, withRowConsole,
    consoleLine, modify, mbind, eff_bind, liftC.
  rewrite Hread, Hparse. simpl. unfold processRecords. rewrite mapRecords_eq.
  simpl. rewrite Htext. simpl. rewrite Hwrite. simpl.
  eexists. split_and!; [done | done |]. simpl. apply last_snoc.
Qed.




End FileFacts.

Lemma processCSV_bad_input_witness :
  processCSV objectPrototype Toy.readFileSync Toy.writeFileSync Toy.parse Toy.stringify
    (lit "gone.csv") (lit "out.csv") (lit "Body HTML") () (mkWorld Toy.disk [])
  = (Throw (TypeError (lit "ENOENT: no such file or directory")),
     mkWorld Toy.disk [LogCsvError (lit "ENOENT: no such file or directory")]).
Proof.
  apply (processCSV_bad_input objectPrototype Toy.readFileSync Toy.writeFileSync Toy.parse
           Toy.stringify (lit "gone.csv") (lit "out.csv") (lit "Body HTML") ()
           (mkWorld Toy.disk [])).
  left. reflexivity.
Defined.

Lemma processCSV_success_witness :
  ∃ w', processCSV objectPrototype Toy.readFileSync Toy.writeFileSync Toy.parse Toy.stringify
          (lit "a.csv") (lit "out.csv") (lit "Body HTML") () (mkWorld Toy.disk [])
        = (Normal (mkCsvResult 1 (lit "out.csv")), w')
        ∧ files w' = <[lit "out.csv" :=
                        dq "{'type':'root','children':[{'type':'heading','level':1,'children':[{'type':'text','value':'T'}]}]}"]>
                       Toy.disk
        ∧ last (lines w') = Some (LogWritten (lit "out.csv")).
Proof.
  apply (processCSV_success objectPrototype Toy.readFileSync Toy.writeFileSync Toy.parse
           Toy.stringify (lit "a.csv") (lit "out.csv") (lit "Body HTML") ()
           (mkWorld Toy.disk []) (lit "<h1>T</h1>")
           (dq "{'type':'root','children':[{'type':'heading','level':1,'children':[{'type':'text','value':'T'}]}]}")
           [ {[ lit "Body HTML" := VString (lit "<h1>T</h1>") ]} ]
           (<[lit "out.csv" :=
                dq "{'type':'root','children':[{'type':'heading','level':1,'children':[{'type':'text','value':'T'}]}]}"]>
              Toy.disk)).
  - reflexivity.
  - reflexivity.
  - vm_compute. reflexivity.
  - reflexivity.
Defined.


(** The batch of the small file system: the first file is converted,
    the file that is gone fails, and the file after it, which the batch
    itself wrote, is converted. *)
Example batchProcessCSV_run :
  (batchProcessCSV objectPrototype Toy.readFileSync Toy.writeFileSync Toy.parse
     Toy.stringify Toy.globSync Toy.ensureDir Toy.basename Toy.join
     (lit "*.csv") (lit "out") (lit "Body HTML") () (mkWorld Toy.disk [])).1
  = Normal [FileOk (lit "a.csv") (lit "out/a.csv") (mkCsvResult 1 (lit "out/a.csv"));
            FileFailed (lit "gone.csv") (lit "ENOENT: no such file or directory");
            FileOk (lit "out/a.csv") (lit "out/out/a.csv")
              (mkCsvResult 1 (lit "out/out/a.csv"))].
Proof. vm_compute. reflexivity. Qed.

(** * Properties of the transform of [streamProcessCSV] *)

Section StreamFacts.
Implicit Types (st : streamState) (cells : list jsval) (record : row).

Lemma cellOutput_blank (s : jsstring) :
  truthy s && truthy (trim s) = false → cellOutput s = s.
Proof. intros H. unfold cellOutput. by rewrite H. Qed.

(** A record after the header, when the test does not throw. *)
Lemma streamRecord_ok st i record :
  columnIndex st = Some i →
  abortsStream (cellAt i record) = false →
  streamRecord record st
  = (Normal (streamOutput i record),
     mkStream (recordCount st + 1) (headerSeen st) (Some i) (streamConsole st)).
Proof.
  intros Hi Hok. destruct st as [n h ci con]. simpl in Hi. subst ci.
  unfold streamRecord, modify, get, mbind, eff_bind. simpl.
  destruct record as [cells|r]; [|done]. simpl in *.
  unfold convertCells.
  destruct (cells !! i) as [v|] eqn:Hv; simpl in *; [|done].
  destruct v as [| |b|z|s|]; simpl in *; try done.
  - by destruct b.
  - destruct z; simpl in *; done.
  - destruct (truthy s) eqn:Hs; simpl.
    + unfold liftC, cellOutput. rewrite Hs. simpl.
      destruct (truthy (trim s)); simpl.
      * unfold tryCatch, onConsole. simpl. by rewrite htmlToJson_eq.
      * by rewrite list_insert_id.
    + unfold cellOutput. rewrite Hs. simpl. by rewrite list_insert_id.
Qed.

Lemma streamTransform_seen htmlColumn record st :
  headerSeen st = true → streamTransform htmlColumn record st = streamRecord record st.
Proof. intros Hh. unfold streamTransform. rewrite eff_bind_run. simpl. by rewrite Hh. Qed.

Lemma streamRecord_unchanged record st :
  columnIndex st = None →
  streamRecord record st
  = (Normal record,
     mkStream (recordCount st + 1) (headerSeen st) None (streamConsole st)).
Proof.
  intros Hi. destruct st as [n h ci con]. simpl in Hi. subst ci.
  unfold streamRecord. rewrite !eff_bind_run. simpl. reflexivity.
Qed.

Lemma streamRows_records htmlColumn i (records : list row) st :
  headerSeen st = true → columnIndex st = Some i →
  Forall (λ record, abortsStream (cellAt i record) = false) records →
  streamRows htmlColumn records st
  = (Normal (streamOutput i <$> records),
     mkStream (recordCount st + length records) true (Some i) (streamConsole st)).
Proof.
  intros Hh Hi Hok. revert st Hh Hi.
  induction Hok as [|record rest Hrecord _ IH]; intros st Hh Hi.
  - destruct st as [n h ci con]. simpl in *. subst. by rewrite Nat.add_0_r.
  - cbn [streamRows]. rewrite eff_bind_run, streamTransform_seen by done.
    rewrite (streamRecord_ok st i record Hi Hrecord).
    rewrite eff_bind_run, IH by done. simpl. unfold mret, eff_ret.
    rewrite ?Hh. f_equal. f_equal. lia.
Qed.

Lemma streamRows_unchanged htmlColumn (records : list row) st :
  headerSeen st = true → columnIndex st = None →
  streamRows htmlColumn records st
  = (Normal records, mkStream (recordCount st + length records) true None (streamConsole st)).
Proof.
  revert st. induction records as [|record rest IH]; intros st Hh Hi.
  - destruct st as [n h ci con]. simpl in *. subst. by rewrite Nat.add_0_r.
  - cbn [streamRows]. rewrite eff_bind_run, streamTransform_seen by done.
    rewrite (streamRecord_unchanged record st Hi).
    rewrite eff_bind_run, IH by done. simpl. unfold mret, eff_ret.
    rewrite ?Hh. f_equal. f_equal. lia.
Qed.

Lemma findIndexFrom_Some p cells k i :
  findIndexFrom p cells k = Some i →
  k ≤ i ∧ (∃ v, cells !! (i - k) = Some v ∧ p v = true)
  ∧ ∀ j v, j < i - k → cells !! j = Some v → p v = false.
Proof.
  revert k. induction cells as [|c cells IH]; intros k; simpl; [done|].
  destruct (p c) eqn:Hc.
  - intros [= <-]. replace (k - k) with 0 by lia. split_and!; [lia | eauto | lia].
  - intros (Hk & (v & Hv & Hpv) & Hmin)%IH.
    replace (i - k) with (S (i - S k)) by lia. split_and!; [lia | eauto |].
    intros [|j] v' Hj; simpl; [congruence|]. apply Hmin. lia.
Qed.

Lemma findIndexFrom_None p cells k :
  Forall (λ v, p v = false) cells → findIndexFrom p cells k = None.
Proof.
  intros H. revert k. induction H as [|c cells Hc _ IH]; intros k; simpl; [done|].
  by rewrite Hc.
Qed.

Lemma abortsStream_throws (v : jsval) :
  abortsStream v = true →
  contentToConvert v = Throw (TypeError (lit "htmlContent.trim is not a function")).
Proof.
  destruct v as [| |b|z|s|]; simpl; try done.
  - by destruct b.
  - by destruct z.
  - by destruct s.
Qed.

End StreamFacts.

(** X12.  A stream whose header holds the column name: the column is
    the first header cell equal to the name; the header goes through
    unchanged, and so does the order of the records; every record whose
    cell does not stop the stream comes out with that one cell converted
    and all other cells as they were; nothing is written to the console
    and [recordCount] ends as the number of records after the header. *)
Theorem stream_converts_in_order (htmlColumn : jsstring) (header : list jsval)
    (records : list row) (i : nat) (con : list logEntry) :
  findIndex (λ col, bool_decide (col = VString htmlColumn)) header = Some i →
  Forall (λ record, abortsStream (cellAt i record) = false) records →
  streamRows htmlColumn (RowArray header :: records) (streamStart con)
  = (Normal (RowArray header :: (streamOutput i <$> records)),
     mkStream (length records) true (Some i) con)
  ∧ header !! i = Some (VString htmlColumn)
  ∧ (∀ j, j < i → header !! j ≠ Some (VString htmlColumn))
  ∧ ∀ cells,
      length (convertCells i cells) = length cells
      ∧ (∀ j, j ≠ i → convertCells i cells !! j = cells !! j)
      ∧ (∀ s, cells !! i = Some (VString s) →
              convertCells i cells !! i = Some (VString (cellOutput s))).
Proof.
  intros Hfind Hok. split_and!.
  - cbn [streamRows]. unfold streamTransform, streamStart, get, mbind at 1 2, eff_bind at 1 2.
    cbn [headerSeen]. unfold streamHeader. rewrite Hfind.
    unfold modify, mbind at 1 2 3 4, eff_bind at 1 2 3 4. simpl.
    unfold mbind, eff_bind.
    rewrite (streamRows_records htmlColumn i) by done. reflexivity.
  - apply findIndexFrom_Some in Hfind as (_ & (v & Hv & Hp) & _).
    rewrite Nat.sub_0_r in Hv. apply bool_decide_eq_true in Hp. by subst v.
  - intros j Hj Hcell. apply findIndexFrom_Some in Hfind as (_ & _ & Hmin).
    specialize (Hmin j _ ltac:(lia) Hcell). by rewrite bool_decide_true in Hmin.
  - intros cells. unfold convertCells. split_and!.
    + destruct (cells !! i) as [[| | | |s|]|]; try done. apply length_insert.
    + intros j Hj. destruct (cells !! i) as [[| | | |s|]|]; try done.
      by apply list_lookup_insert_ne.
    + intros s Hs. rewrite Hs. apply list_lookup_insert_eq. by eapply lookup_lt_Some.
Qed.

Lemma stream_converts_in_order_witness :
  let header := [VString (lit "Title"); VString (lit "Body HTML")] in
  let r1 := RowArray [VString (lit "a"); VString (lit "<h2>T</h2>")] in
  let r2 := RowArray [VString (lit "b"); VString (lit "  ")] in
  let r3 := RowArray [VString (lit "c")] in
  streamRows (lit "Body HTML") [RowArray header; r1; r2; r3] (streamStart [])
  = (Normal [RowArray header;
             RowArray [VString (lit "a");
                       VString (dq "{'type':'root','children':[{'type':'heading','level':2,'children':[{'type':'text','value':'T'}]}]}")];
             r2; r3],
     mkStream 3 true (Some 1) []).
Proof.
  intros header r1 r2 r3.
  destruct (stream_converts_in_order (lit "Body HTML") header [r1; r2; r3] 1 [])
    as [Hrun _].
  - reflexivity.
  - repeat constructor.
  - rewrite Hrun. vm_compute. reflexivity.
Defined.

(** X13.  The two paths convert a string cell to the same text: what
    [processCSV] puts into the HTML column of a record and what the
    transform of the stream puts into the cell of that column are equal. *)
Theorem stream_agrees_with_processCSV (inherited : jsstring → bool)
    (htmlColumn : jsstring) (i index : nat) (r : record) (cells : list jsval)
    (s : jsstring) (st : streamState) (con : list logEntry) :
  r !! htmlColumn = Some (VString s) →
  cells !! i = Some (VString s) →
  headerSeen st = true → columnIndex st = Some i →
  ∃ r' con' cells' st',
    processRecord inherited htmlColumn index r con = (Normal r', con')
    ∧ streamTransform htmlColumn (RowArray cells) st = (Normal (RowArray cells'), st')
    ∧ r' !! htmlColumn = cells' !! i
    ∧ con' = con ∧ streamConsole st' = streamConsole st.
Proof.
  intros Hr Hcells Hh Hi.
  rewrite processRecord_eq.
  unfold streamTransform, get, mbind, eff_bind. rewrite Hh.
  rewrite (streamRecord_ok st i (RowArray cells) Hi)
    by (simpl; rewrite Hcells; simpl; apply andb_false_r).
  do 4 eexists. split_and!; [reflexivity | reflexivity | | | reflexivity].
  - unfold rowOutput, hasProperty, getProperty, convertCells. rewrite Hr, Hcells. simpl.
    rewrite list_lookup_insert_eq by by eapply lookup_lt_Some.
    unfold cellOutput. destruct (truthy s && truthy (trim s)).
    + by rewrite lookup_insert_eq.
    + done.
  - unfold rowLog, hasProperty, getProperty. rewrite Hr. simpl. by rewrite app_nil_r.
Qed.

Lemma stream_agrees_with_processCSV_witness :
  let r : record := {[ lit "Body HTML" := VString (lit "<p>x</p>") ]} in
  let cells := [VString (lit "<p>x</p>")] in
  ∃ r' con' cells' st',
    processRecord objectPrototype (lit "Body HTML") 0 r [] = (Normal r', con')
    ∧ streamTransform (lit "Body HTML") (RowArray cells) (mkStream 0 true (Some 0) [])
      = (Normal (RowArray cells'), st')
    ∧ r' !! lit "Body HTML" = cells' !! 0
    ∧ con' = [] ∧ streamConsole st' = [].
Proof.
  intros r cells.
  apply (stream_agrees_with_processCSV objectPrototype (lit "Body HTML") 0 0 r cells
           (lit "<p>x</p>") (mkStream 0 true (Some 0) []) []); reflexivity.
Defined.

(** X14.  A cell that is truthy and not a string (a number that the
    parser cast, say) ends the stream: the transform gives the
    [TypeError] of the test to its callback, having counted the record,
    and no later record is transformed.  [processCSV] on the same cell
    keeps the record and writes a warning. *)
Theorem stream_aborts_where_processCSV_warns (inherited : jsstring → bool)
    (htmlColumn : jsstring) (i index : nat) (r : record) (cells : list jsval)
    (v : jsval) (rest : list row) (st : streamState) (con : list logEntry) :
  r !! htmlColumn = Some v →
  cells !! i = Some v →
  abortsStream v = true →
  headerSeen st = true → columnIndex st = Some i →
  let e := TypeError (lit "htmlContent.trim is not a function") in
  streamRows htmlColumn (RowArray cells :: rest) st
  = (Throw e, mkStream (recordCount st + 1) true (Some i) (streamConsole st))
  ∧ processRecord inherited htmlColumn index r con
    = (Normal r, con ++ [WarnRow (index + 1) (message e)]).
Proof.
  intros Hr Hcells Hv Hh Hi e. split.
  - destruct st as [n h ci c]. simpl in *. subst.
    unfold streamTransform, get, mbind at 1 2, eff_bind at 1 2. simpl.
    unfold streamRecord, modify, get, mbind at 1 2 3, eff_bind at 1 2 3. simpl.
    rewrite Hcells. simpl.
    assert (truthyVal v = true) as -> by (by apply andb_true_iff in Hv as [? _]).
    unfold mbind, eff_bind, liftC. by rewrite (abortsStream_throws v Hv).
  - rewrite processRecord_eq. unfold rowOutput, rowLog, hasProperty, getProperty.
    rewrite Hr. simpl. by rewrite (abortsStream_throws v Hv).
Qed.

Lemma stream_aborts_where_processCSV_warns_witness :
  let r : record := {[ lit "Body HTML" := VNumber 5 ]} in
  let e := TypeError (lit "htmlContent.trim is not a function") in
  streamRows (lit "Body HTML") [RowArray [VNumber 5]; RowArray [VString (lit "<p>x</p>")]]
    (mkStream 0 true (Some 0) [])
  = (Throw e, mkStream 1 true (Some 0) [])
  ∧ processRecord objectPrototype (lit "Body HTML") 0 r [] = (Normal r, [WarnRow 1 (message e)]).
Proof.
  intros r e.
  apply (stream_aborts_where_processCSV_warns objectPrototype (lit "Body HTML") 0 0 r
           [VNumber 5] (VNumber 5) [RowArray [VString (lit "<p>x</p>")]]
           (mkStream 0 true (Some 0) []) []); reflexivity.
Defined.

(** X15.  A stream whose header does not hold the column name, or whose
    records are objects: every record goes through unchanged and is
    counted; for a header array one warning is written, for an object
    none. *)
Theorem stream_missing_column (htmlColumn : jsstring) (first : row)
    (records : list row) (con : list logEntry) :
  match first with
  | RowArray header => VString htmlColumn ∉ header
  | RowObject _ => True
  end →
  streamRows htmlColumn (first :: records) (streamStart con)
  = (Normal (first :: records),
     mkStream (length records) true None
       (con ++ match first with
               | RowArray _ => [WarnColumnNotFound htmlColumn]
               | RowObject _ => []
               end)).
Proof.
  intros Hmissing.
  cbn [streamRows]. unfold streamTransform, streamStart, get, mbind at 1 2, eff_bind at 1 2.
  cbn [headerSeen]. unfold streamHeader. destruct first as [header|r].
  - assert (findIndex (λ col, bool_decide (col = VString htmlColumn)) header = None) as ->.
    { apply findIndexFrom_None, Forall_forall. intros v Hv.
      apply bool_decide_eq_false. by intros ->. }
    unfold modify, onConsole, consoleWarn, mbind at 1 2 3 4, eff_bind at 1 2 3 4. simpl.
    unfold mbind, eff_bind. by rewrite streamRows_unchanged.
  - unfold modify, mbind at 1 2 3, eff_bind at 1 2 3. simpl.
    unfold mbind, eff_bind. rewrite streamRows_unchanged by done. simpl.
    by rewrite app_nil_r.
Qed.

Lemma stream_missing_column_witness :
  let header := RowArray [VString (lit "Title"); VString (lit "Text")] in
  let r1 := RowArray [VString (lit "a"); VString (lit "<p>x</p>")] in
  streamRows (lit "Body HTML") [header; r1] (streamStart [])
  = (Normal [header; r1], mkStream 1 true None [WarnColumnNotFound (lit "Body HTML")]).
Proof.
  intros header r1.
  apply (stream_missing_column (lit "Body HTML") header [r1] []).
  simpl. intros H. repeat (apply elem_of_cons in H as [H|H]; [discriminate|]).
  by apply elem_of_nil in H.
Defined.

(** * Further properties of the spans *)

Section SpanFacts.
Implicit Types (content : jsstring) (pos : tagPosition).

Lemma scanTag_chain fuel content tag startIndex tagPositions :
  0 < length (tagStart tag) →
  ∃ new, scanTag fuel content tag startIndex tagPositions = tagPositions ++ new
         ∧ nonOverlapping (startIndex `min` length content) new = true.
Proof.
  intros Htag. revert startIndex tagPositions.
  induction fuel as [|fuel IH]; intros startIndex tagPositions; simpl.
  { exists []. by rewrite app_nil_r. }
  destruct (indexOf content (tagStart tag) startIndex) as [i|] eqn:Ei;
    [|exists []; by rewrite app_nil_r].
  destruct (indexOf content (tagEnd tag) (i + length (tagStart tag))) as [j|] eqn:Ej;
    [|exists []; by rewrite app_nil_r].
  edestruct IH as (new & -> & Hnew). eexists (_ :: new).
  rewrite <- (assoc_L (++)). split; [done|].
  apply indexOf_Some in Ei as (Hi & _ & _).
  apply indexOf_Some in Ej as (_ & Hj%occursAt_length & _).
  simpl. apply andb_true_iff. split; [by apply Nat.leb_le|].
  by replace ((j + length (tagEnd tag)) `min` length content)
    with (j + length (tagEnd tag)) in Hnew by lia.
Qed.

Lemma insertPos_sorted pos (l : list tagPosition) :
  StronglySorted startsBefore l → StronglySorted startsBefore (insertPos pos l).
Proof.
  induction 1 as [|q l Hl IH Hq]; simpl.
  - repeat constructor.
  - destruct (posStart pos <=? posStart q)%nat eqn:E.
    + apply Nat.leb_le in E. constructor; [by constructor|].
      constructor; [done|]. eapply Forall_impl; [exact Hq|].
      intros r Hr. unfold startsBefore in *. lia.
    + apply Nat.leb_gt in E. constructor; [done|].
      rewrite insertPos_perm. constructor; [|done]. unfold startsBefore. lia.
Qed.

Lemma sortPositions_sorted (l : list tagPosition) :
  StronglySorted startsBefore (sortPositions l).
Proof.
  induction l as [|p l IH]; simpl; [constructor|]. by apply insertPos_sorted.
Qed.

Lemma flagged_app_filter (l1 l2 : list TextRun) :
  List.filter flagged (l1 ++ l2) = List.filter flagged l1 ++ List.filter flagged l2.
Proof. apply List.filter_app. Qed.

Lemma walkPositions_flagged content (positions : list tagPosition) lastIndex :
  List.filter flagged (walkPositions content positions lastIndex []).1
  = spanRun content <$> positions.
Proof.
  revert lastIndex. induction positions as [|pos rest IH]; intros lastIndex; simpl; [done|].
  rewrite walkPositions_app. simpl. rewrite !flagged_app_filter, IH. simpl.
  destruct (lastIndex <? posStart pos)%nat; [|done].
  by destruct (truthy _).
Qed.

End SpanFacts.

(** X16.  The spans that the loop of one tag finds lie one after the
    other: a span begins at or after the end of the span before it, so
    two spans of the same tag never overlap. *)
Theorem same_tag_spans_disjoint (content : jsstring) (tag : formattingTag) :
  tag ∈ formattingTags →
  nonOverlapping 0 (scanTag (S (length content)) content tag 0 []) = true.
Proof.
  intros Htag.
  destruct (scanTag_chain (S (length content)) content tag 0 []) as (new & -> & Hnew).
  - unfold formattingTags in Htag.
    repeat (apply elem_of_cons in Htag as [->|Htag]; [simpl; lia|]).
    by apply elem_of_nil in Htag.
  - done.
Qed.

Lemma same_tag_spans_disjoint_witness :
  let content := lit "<b>one<b>two</b>three</b><b>four</b>" in
  let tag := mkTag (lit "<b>") (lit "</b>") bold in
  scanTag (S (length content)) content tag 0 [] = [mkPos 0 16 3 12 bold; mkPos 25 36 28 32 bold]
  ∧ nonOverlapping 0 (scanTag (S (length content)) content tag 0 []) = true.
Proof.
  intros content tag. split; [vm_compute; reflexivity|].
  apply (same_tag_spans_disjoint content tag). unfold formattingTags. set_solver.
Defined.

(** X17.  The runs with a flag are exactly the runs of the spans found,
    one for each span, in ascending order of the starts of the spans. *)
Theorem flagged_runs_are_spans (content : jsstring) :
  List.filter flagged (parseFormattedString content [])
  = spanRun content <$> sortPositions (findTagPositions content)
  ∧ StronglySorted startsBefore (sortPositions (findTagPositions content))
  ∧ sortPositions (findTagPositions content) ≡ₚ findTagPositions content.
Proof.
  split_and!; [|apply sortPositions_sorted|apply sortPositions_perm].
  unfold parseFormattedString.
  destruct (findTagPositions content) as [|p0 l0] eqn:Eps; [done|].
  pose proof (walkPositions_flagged content (sortPositions (p0 :: l0)) 0) as Hw.
  destruct (walkPositions content _ 0 []) as [runs lastIndex]. simpl in Hw.
  destruct (lastIndex <? length content)%nat; [|done].
  destruct (truthy _); [|done].
  rewrite flagged_app_filter, Hw. simpl. by rewrite app_nil_r.
Qed.

(** * The flags of the text nodes *)

Section Flags.
Implicit Types (content html : jsstring) (run : TextRun).

Lemma spanRun_runOfSpan content pos :
  pos ∈ findTagPositions content → runOfSpan content (spanRun content pos).
Proof.
  intros Hpos. pose proof (findTagPositions_spans content) as Hs.
  rewrite Forall_forall in Hs.
  destruct (Hs _ Hpos) as (tag & Htag & Hattr & Hos & Hoe & Hcs & _).
  exists pos, tag. unfold spanRun. rewrite Hattr. split_and!; done.
Qed.

(** A run of the segmenter has no flag, or it is the run of a span. *)
Lemma parseFormattedString_origin content :
  Forall (λ run, flags run = [] ∨ runOfSpan content run) (parseFormattedString content []).
Proof.
  destruct (findTagPositions content) as [|p0 l0] eqn:Eps.
  - unfold parseFormattedString. rewrite Eps. apply Forall_singleton. by left.
  - destruct (parseFormattedString_runs content) as [H _]; [by rewrite Eps|].
    eapply Forall_impl; [exact H|]. intros run [[Hf _]|(pos & Hpos & ->)]; [by left|].
    right. by apply spanRun_runOfSpan.
Qed.

Lemma parseFormattedString_flagged content :
  List.filter flagged (parseFormattedString content [])
  = spanRun content <$> sortPositions (findTagPositions content).
Proof.
  unfold parseFormattedString.
  destruct (findTagPositions content) as [|p0 l0] eqn:Eps; [done|].
  pose proof (walkPositions_flagged content (sortPositions (p0 :: l0)) 0) as Hw.
  destruct (walkPositions content _ 0 []) as [runs lastIndex]. simpl in Hw.
  destruct (lastIndex <? length content)%nat; [|done].
  destruct (truthy _); [|done].
  rewrite flagged_app_filter, Hw. simpl. by rewrite app_nil_r.
Qed.

Lemma walkPositions_interleaved content (positions : list tagPosition) lastIndex :
  ∃ texts, length texts = length positions
    ∧ (walkPositions content positions lastIndex []).1
      = concat (zip_with (λ t pos, (plainRun <$> t) ++ [spanRun content pos]) texts positions).
Proof.
  revert lastIndex. induction positions as [|pos rest IH]; intros lastIndex.
  - by exists [].
  - cbn [walkPositions]. rewrite walkPositions_app. cbn [fst].
    destruct (IH (posEnd pos)) as (texts & Hlen & ->).
    destruct (lastIndex <? posStart pos)%nat;
      [destruct (truthy (substring content lastIndex (posStart pos)))|].
    + exists ([substring content lastIndex (posStart pos)] :: texts).
      split; [simpl; lia | done].
    + exists ([] :: texts). split; [simpl; lia | done].
    + exists ([] :: texts). split; [simpl; lia | done].
Qed.

(** The output of the segmenter on a content with spans: plain text
    and the runs of the spans in turn. *)
Lemma parseFormattedString_interleaved content :
  findTagPositions content ≠ [] →
  ∃ texts after,
    length texts = length (findTagPositions content)
    ∧ parseFormattedString content []
      = interleaved content texts (sortPositions (findTagPositions content)) after.
Proof.
  intros Hne. unfold parseFormattedString, interleaved.
  destruct (findTagPositions content) as [|p0 l0] eqn:Eps; [done|].
  destruct (walkPositions_interleaved content (sortPositions (p0 :: l0)) 0)
    as (texts & Hlen & Hw).
  rewrite (Permutation_length (sortPositions_perm (p0 :: l0))) in Hlen.
  destruct (walkPositions content _ 0 []) as [runs lastIndex]. simpl in Hw. subst runs.
  destruct (lastIndex <? length content)%nat;
    [destruct (truthy (substringFrom content lastIndex))|].
  - exists texts, [substringFrom content lastIndex]. done.
  - exists texts, []. by rewrite app_nil_r.
  - exists texts, []. by rewrite app_nil_r.
Qed.

(** The runs of a block content, as they stand in the tree. *)
Lemma content_runs_origin html c :
  infixOf c html →
  Forall (λ run,
      atMostOneFlag run ∧ length (flags run) ≤ 1
      ∧ (flags run = []
         ∨ ∃ content, infixOf content html
                      ∧ run ∈ parseFormattedString content []
                      ∧ runOfSpan content run))
    (parseFormattedString c []).
Proof.
  intros Hc. apply Forall_forall. intros run Hrun.
  pose proof (parseFormattedString_flags c) as Hflags.
  pose proof (parseFormattedString_origin c) as Horigin.
  rewrite Forall_forall in Hflags, Horigin.
  specialize (Hflags _ Hrun). specialize (Horigin _ Hrun). split_and!.
  - done.
  - destruct Hflags as [->|(tag & _ & ->)]; simpl; lia.
  - destruct Horigin as [?|Hspan]; [by left|]. right. by exists c.
Qed.

End Flags.

(** C7.  Every text node of the tree that [htmlToJson] returns has at
    most one flag.  A node with a flag is the run of a matched span of
    the content of its block: its value is the text between the opening
    and the closing marker of an entry of the table, found at the span,
    and its one flag is the attribute of that very entry.  In the segmenter
    every span found has its run with the attribute of its entry, and the
    runs with a flag are exactly these runs, one per span in the order of
    the starts: the output is plain text and the runs of the spans in
    turn, and every run of plain text, before, between and after the
    spans (as the space of a blank paragraph), is built without a flag. *)
Theorem text_runs_at_most_one_flag (html : jsstring) (con : list logEntry) :
  ∃ root, returned (htmlToJson html con) = Some root
    ∧ Forall (λ run,
          atMostOneFlag run ∧ length (flags run) ≤ 1
          ∧ (flags run = []
             ∨ ∃ content, infixOf content html
                          ∧ run ∈ parseFormattedString content []
                          ∧ runOfSpan content run))
        (textRuns root)
    ∧ ∀ content,
        (∀ pos, pos ∈ findTagPositions content →
                runOfSpan content (spanRun content pos)
                ∧ spanRun content pos ∈ parseFormattedString content [])
        ∧ List.filter flagged (parseFormattedString content [])
          = spanRun content <$> sortPositions (findTagPositions content)
        ∧ (findTagPositions content ≠ [] →
           ∃ texts after,
             length texts = length (findTagPositions content)
             ∧ parseFormattedString content []
               = interleaved content texts (sortPositions (findTagPositions content)) after)
        ∧ (findTagPositions content = [] →
           parseFormattedString content [] = [plainRun content]).
Proof.
  rewrite htmlToJson_eq. eexists. split; [done|]. split.
  - assert (∀ lt c, infixOf c html →
              Forall (λ run,
                  atMostOneFlag run ∧ length (flags run) ≤ 1
                  ∧ (flags run = []
                     ∨ ∃ content, infixOf content html
                                  ∧ run ∈ parseFormattedString content []
                                  ∧ runOfSpan content run))
                (textRunsOfNode (listNode lt c))) as Hlist.
    { intros lt c Hc. simpl. apply Forall_concat. rewrite <- list_fmap_compose.
      apply Forall_fmap. eapply Forall_impl; [apply contents_infixOf|].
      intros c' Hc'. simpl. apply content_runs_origin.
      exact (infixOf_trans _ _ _ Hc' Hc). }
    unfold textRuns. simpl. apply Forall_concat, Forall_fmap.
    unfold rootChildrenOf, paragraphNodes, listNodes, headingNodes.
    rewrite !Forall_app. split_and!.
    + apply Forall_fmap. eapply Forall_impl; [apply contents_infixOf|].
      intros c Hc. simpl. destruct (isBlank c); [|by apply content_runs_origin].
      apply Forall_singleton. split_and!; [by left | simpl; lia | by left].
    + apply Forall_fmap. eapply Forall_impl; [apply contents_infixOf|].
      intros c Hc. by apply Hlist.
    + apply Forall_fmap. eapply Forall_impl; [apply contents_infixOf|].
      intros c Hc. by apply Hlist.
    + apply Forall_concat, Forall_fmap, Forall_true. intros level.
      apply Forall_fmap. eapply Forall_impl; [apply contents_infixOf|].
      intros c Hc. simpl. by apply content_runs_origin.
  - intros content. split_and!.
    + intros pos Hpos. split; [by apply spanRun_runOfSpan|].
      assert (findTagPositions content ≠ []) as Hne.
      { intros E. rewrite E in Hpos. by apply elem_of_nil in Hpos. }
      destruct (parseFormattedString_runs content Hne) as [_ H]. by apply H.
    + apply parseFormattedString_flagged.
    + apply parseFormattedString_interleaved.
    + intros E. unfold parseFormattedString. by rewrite E.
Qed.
